(** * netsort: a shallow embedding of [netsort.go]

    The program is one node of a distributed sort.  Every node reads a
    shard of 100-byte records, routes each record to the node that owns
    the leading bits of its key, receives the records routed to it by
    its peers, and writes its own key range in sorted order.

    The development follows the source file top to bottom:
    - [Codec]: the [Record] struct, the 101-byte wire frame, the model
      of byte streams with short reads, and [receiveData];
    - [Partition]: [msb] and the [keyToServer] shift of [main];
    - [Dispatch]: the read-and-route loop of [main] and the terminator
      loop that follows it;
    - [Merge]: the final [sort.Slice] and the output loop;
    - [Barrier]: the goroutines [acceptConnections], [receiveData],
      [collectReceivedData] and the [waitGroup], as an interleaving
      step relation. *)

From Stdlib Require Import ZArith Lia Bool.
From Stdlib Require Import Strings.Byte.
From Stdlib Require Import Sorting.Permutation Sorting.Sorted.
From stdpp Require Import base list sorting strings gmap.

#[local] Open Scope nat_scope.

(** ** Outcomes

    A Go function of this program either returns, or ends the process
    through [log.Fatalf] ([checkErrorAndExit]), or panics at run time
    (index out of range, negative shift count).  Loops of the source are
    fuelled recursions here; [OutOfFuel] is the fourth outcome and the
    totality lemmas show that the entry points never produce it. *)

Inductive outcome (A : Type) : Type :=
| Ok (a : A)
| Fatal
| Panic
| OutOfFuel.

Arguments Ok {A} a.
Arguments Fatal {A}.
Arguments Panic {A}.
Arguments OutOfFuel {A}.

#[global] Instance outcome_ret : MRet outcome := fun A a => Ok a.

#[global] Instance outcome_bind : MBind outcome := fun A B k m =>
  match m with
  | Ok a => k a
  | Fatal => Fatal
  | Panic => Panic
  | OutOfFuel => OutOfFuel
  end.

#[global] Instance outcome_eq_dec {A} `{EqDecision A} : EqDecision (outcome A).
Proof. solve_decision. Defined.

(** ** Record codec *)

Module Codec.

(** [type Record struct { Key [10]byte; Value [90]byte }].  The arrays
    are lists here; [wf_Record] states the two lengths that the Go type
    fixes. *)
Record Rec : Type := mkRecord { Key : list byte; Value : list byte }.

Definition wf_Record (r : Rec) : Prop :=
  length (Key r) = 10 /\ length (Value r) = 90.

(** [var key [10]byte]: a zeroed array. *)
Definition zero_array (n : nat) : list byte := replicate n x00.

(** [copy(dst, src)]: the first [min (len dst) (len src)] elements of
    [dst] are overwritten. *)
Definition copy (dst src : list byte) : list byte :=
  take (length dst) src ++ drop (length src) dst.

(** [data[lo:hi]]. *)
Definition slice (lo hi : nat) (data : list byte) : list byte :=
  take (hi - lo) (drop lo data).

(** *** Byte streams

    A [net.Conn] read side and the input [os.File] are byte streams.
    [pending] is what the peer (or the file) still holds for us, in
    order; [chunks] is the transport's behaviour: its k-th entry is how
    many bytes are available when the k-th [Read] is served, so that a
    [Read] may return fewer bytes than the buffer holds.  A [Read]
    blocks until at least one byte is there, hence [Nat.max 1]; once
    the list is used up every [Read] is served in full. *)
Record Stream : Type := mkStream { pending : list byte; chunks : list nat }.

Inductive ioerr : Type := EOF.

(** [n, err := s.Read(buf)] with [len(buf) = want].  The result is
    [buf[:n]], the error, and the stream after the call. *)
Definition Read (want : nat) (s : Stream) : list byte * option ioerr * Stream :=
  match want, pending s with
  | 0, _ => ([], None, s)
  | _, [] => ([], Some EOF, s)
  | _, _ =>
      let avail := match chunks s with [] => want | k :: _ => Nat.max 1 k end in
      let n := Nat.min want avail in
      (take n (pending s), None,
       {| pending := drop n (pending s); chunks := tail (chunks s) |})
  end.

(** [checkErrorAndExit(err)]. *)
Definition checkErrorAndExit (err : option ioerr) : outcome unit :=
  match err with
  | None => Ok tt
  | Some _ => Fatal
  end.

(** The inner loop of [receiveData] (lines 108-118): read until 101
    bytes are collected. *)
Fixpoint read_loop (fuel bytesToRead : nat) (data : list byte) (conn : Stream)
  : outcome (list byte * Stream) :=
  match fuel with
  | 0 => OutOfFuel
  | S fuel' =>
      let '(buf, err, conn') := Read (101 - bytesToRead) conn in
      _ ← checkErrorAndExit err;
      let bytesToRead' := bytesToRead + length buf in
      let data' := data ++ buf in
      if 101 <=? bytesToRead' then Ok (data', conn')
      else read_loop fuel' bytesToRead' data' conn'
  end.

Definition read_frame (conn : Stream) : outcome (list byte * Stream) :=
  read_loop 101 0 [] conn.

(** Lines 119-123: the record carried by a frame whose control byte is
    not 1. *)
Definition frame_record (data : list byte) : Rec :=
  {| Key := copy (zero_array 10) (slice 1 11 data);
     Value := copy (zero_array 90) (slice 11 101 data) |}.

(** [streamComplete := (data[0] == 1)]; [None] is the index panic on an
    empty slice. *)
Definition streamComplete (data : list byte) : option bool :=
  match data with
  | [] => None
  | ctl :: _ => Some (Byte.eqb ctl x01)
  end.

(** What one pass of the outer loop does with a complete frame:
    [Some r] is [dataChannel <- Record{key, value}], [None] is
    [break]. *)
Definition decode_frame (data : list byte) : outcome (option Rec) :=
  match streamComplete data with
  | None => Panic
  | Some true => Ok None
  | Some false => Ok (Some (frame_record data))
  end.

(** [receiveData(conn, dataChannel)].  [dataChannel] is the sequence of
    records sent on the channel so far.  [Ok ch] is a normal return:
    the deferred [close(dataChannel)] runs and the channel has carried
    exactly [ch]. *)
Fixpoint receiveData_loop (fuel : nat) (conn : Stream) (dataChannel : list Rec)
  : outcome (list Rec) :=
  match fuel with
  | 0 => OutOfFuel
  | S fuel' =>
      '(data, conn') ← read_frame conn;
      d ← decode_frame data;
      match d with
      | Some r => receiveData_loop fuel' conn' (dataChannel ++ [r])
      | None => Ok dataChannel
      end
  end.

Definition receiveData (conn : Stream) : outcome (list Rec) :=
  receiveData_loop (S (length (pending conn))) conn [].

(** *** The write side (lines 218-224 and 228-236) *)

(** Three [conn.Write] calls: control byte 0, key, value.  A connection
    that is written to is the sequence of bytes written so far. *)
Definition write_data_frame (written : list byte) (r : Rec) : list byte :=
  ((written ++ [x00]) ++ Key r) ++ Value r.

(** Control byte 1, then a zeroed key and a zeroed value. *)
Definition write_terminator (written : list byte) : list byte :=
  ((written ++ [x01]) ++ zero_array 10) ++ zero_array 90.

Definition data_frame (r : Rec) : list byte := write_data_frame [] r.
Definition terminator_frame : list byte := write_terminator [].

End Codec.

(** ** Partitioner *)

Module Partition.

(** [msb := int(math.Log2(float64(numServers)))] (line 171).
    [math.Log2] returns the binary exponent itself when the argument is
    a power of two, and for the other sizes below 512 the truncation of
    its result is the floor of the logarithm.  From 512 on every value
    of [msb] exceeds 8 and line 205 panics whatever the rounding, so
    [Z.log2] describes the program for every [numServers >= 1]. *)
Definition msb (numServers : Z) : Z := Z.log2 numServers.

(** [x >> count] on Go's [int] with a signed count: a negative count is
    a run-time panic. *)
Definition shr (x count : Z) : outcome Z :=
  if (count <? 0)%Z then Panic else Ok (Z.shiftr x count).

(** [firstByte := key[0]]. *)
Definition firstByte (key : list byte) : outcome byte :=
  match key with
  | [] => Panic
  | b :: _ => Ok b
  end.

(** [keyToServer := int(firstByte) >> (8 - msb)] (lines 204-205). *)
Definition keyToServer (key : list byte) (msb : Z) : outcome Z :=
  b ← firstByte key;
  shr (Z.of_N (Byte.to_N b)) (8 - msb).

(** The partition function of the program: both lines together. *)
Definition destination (key : list byte) (numServers : Z) : outcome Z :=
  keyToServer key (msb numServers).

(** A byte as the number [int(firstByte)]. *)
Definition byte_val (b : byte) : Z := Z.of_N (Byte.to_N b).

(** Cluster sizes 1, 2, 4, 8, ... *)
Definition power_of_two (n : Z) : bool := (n =? 2 ^ Z.log2 n)%Z.

(** Two bytes with the same [bits] leading bits. *)
Definition same_top_bits (bits : Z) (b b' : byte) : Prop :=
  ∀ i, (8 - bits ≤ i < 8)%Z → Z.testbit (byte_val b') i = Z.testbit (byte_val b) i.

End Partition.

(** ** Ingest and dispatch (lines 171-237) *)

Module Dispatch.
Import Codec Partition.

(** [connections map[int]net.Conn]: an outbound connection is the bytes
    written on it so far; [connectToSocket] retries until it has a
    fresh connection. *)
Definition connectToSocket : list byte := [].

(** [serverConfig.Servers[i]]: an index outside [0, numServers) is a
    run-time panic. *)
Definition Servers (numServers i : Z) : outcome unit :=
  if decide (0 ≤ i < numServers)%Z then Ok tt else Panic.

(** Lines 174-184: one connection to every id but our own. *)
Definition connect_peers (numServers serverID : Z) : gmap Z (list byte) :=
  foldl (fun connections i =>
           if decide (i = serverID) then connections
           else <[i := connectToSocket]> connections)
        ∅ (seqZ 0 numServers).

(** Lines 210-217: look the connection up, dial when it is missing. *)
Definition connection_for (numServers keyToServer : Z)
    (connections : gmap Z (list byte)) : outcome (list byte * gmap Z (list byte)) :=
  match connections !! keyToServer with
  | Some conn => Ok (conn, connections)
  | None =>
      _ ← Servers numServers keyToServer;
      Ok (connectToSocket, <[keyToServer := connectToSocket]> connections)
  end.

(** Lines 187-225.  [inputFile.Read(key[:])] fills the front of a
    zeroed array; the byte count it returns is dropped by the source
    ([_, err := ...]), and only [io.EOF] leaves the loop. *)
Fixpoint dispatch_loop (fuel : nat) (numServers serverID msb : Z)
    (inputFile : Stream) (ownRecords : list Rec)
    (connections : gmap Z (list byte))
  : outcome (list Rec * gmap Z (list byte)) :=
  match fuel with
  | 0 => OutOfFuel
  | S fuel' =>
      let '(kbuf, err, inputFile1) := Read 10 inputFile in
      let key := copy (zero_array 10) kbuf in
      match err with
      | Some EOF => Ok (ownRecords, connections)
      | None =>
          let '(vbuf, err, inputFile2) := Read 90 inputFile1 in
          let value := copy (zero_array 90) vbuf in
          match err with
          | Some EOF => Ok (ownRecords, connections)
          | None =>
              dst ← keyToServer key msb;
              if decide (dst = serverID) then
                dispatch_loop fuel' numServers serverID msb inputFile2
                  (ownRecords ++ [mkRecord key value]) connections
              else
                '(conn, connections') ← connection_for numServers dst connections;
                dispatch_loop fuel' numServers serverID msb inputFile2 ownRecords
                  (<[dst := write_data_frame conn (mkRecord key value)]> connections')
          end
      end
  end.

(** Lines 227-237: [for _, conn := range connections].  Go visits every
    entry once, in an order of its choosing: [order] is that order. *)
Definition send_terminators (order : list Z) (connections : gmap Z (list byte))
  : gmap Z (list byte) :=
  foldl (fun connections p =>
           match connections !! p with
           | Some conn => <[p := write_terminator conn]> connections
           | None => connections
           end)
        connections order.

(** The ids of the other nodes. *)
Definition peer (numServers serverID p : Z) : Prop :=
  (0 ≤ p < numServers)%Z ∧ p ≠ serverID.

#[global] Instance peer_dec numServers serverID p :
  Decision (peer numServers serverID p).
Proof. unfold peer. apply _. Defined.

(** An order of visit of the peers' connections: every id but our own,
    once. *)
Definition visits_peers (numServers serverID : Z) (order : list Z) : Prop :=
  NoDup order ∧ ∀ p, p ∈ order ↔ peer numServers serverID p.

(** A record of the shard that line 205 sends to node [p]. *)
Definition routed (msb p : Z) (r : Rec) : Prop :=
  wf_Record r ∧ keyToServer (Key r) msb = Ok p.

(** The state of the outbound connections inside the loop: one per
    peer, holding the data frames of the records routed to it. *)
Definition carries (numServers serverID msb : Z)
    (connections : gmap Z (list byte)) : Prop :=
  ∀ p, if decide (peer numServers serverID p)
       then ∃ recs, Forall (routed msb p) recs ∧
                    connections !! p = Some (flat_map data_frame recs)
       else connections !! p = None.

(** [main] from line 155 to line 239: the local result buffer and the
    bytes written on every outbound connection. *)
Definition dispatch (numServers serverID : Z) (inputFile : Stream) (order : list Z)
  : outcome (list Rec * gmap Z (list byte)) :=
  _ ← Servers numServers serverID;
  let msb := msb numServers in
  let connections := connect_peers numServers serverID in
  '(ownRecords, connections) ←
    dispatch_loop (S (length (pending inputFile))) numServers serverID msb
      inputFile [] connections;
  Ok (ownRecords, send_terminators order connections).

End Dispatch.

(** ** Merge and emit (lines 241-258) *)

Module Merge.
Import Codec.

(** [bytes.Compare(a, b)]: -1, 0 or 1 by the first position where the
    slices differ, bytes compared as unsigned numbers; a proper prefix
    is smaller. *)
Fixpoint bytes_Compare (a b : list byte) : Z :=
  match a, b with
  | [], [] => 0
  | [], _ :: _ => -1
  | _ :: _, [] => 1
  | x :: a', y :: b' =>
      match N.compare (Byte.to_N x) (Byte.to_N y) with
      | Lt => -1
      | Gt => 1
      | Eq => bytes_Compare a' b'
      end
  end%Z.

(** The closure passed to [sort.Slice] (line 247), on the records it
    indexes. *)
Definition less (a b : Rec) : bool :=
  (bytes_Compare (Key a) (Key b) <=? 0)%Z.

(** Lines 253-258: two [outputFile.Write] calls for every record. *)
Definition write_records (outputFile : list byte) (records : list Rec) : list byte :=
  foldl (fun out rec => (out ++ Key rec) ++ Value rec) outputFile records.

Section WithSort.

(** [sort.Slice] of the Go library, as a function from the comparison
    and the slice to the slice it leaves behind. *)
Variable sort_Slice : (Rec → Rec → bool) → list Rec → list Rec.

(** Lines 241-248, with [received] the value of [receivedRecords]
    once [waitGroup.Wait()] has returned. *)
Definition merge (ownRecords received : list Rec) : list Rec :=
  let records := [] in
  let records := records ++ ownRecords in
  let records := records ++ received in
  sort_Slice less records.

(** Lines 241-258: the content of the output file. *)
Definition emit (ownRecords received : list Rec) : list byte :=
  write_records [] (merge ownRecords received).

End WithSort.

(** What the program relies on from [sort.Slice]: the slice is
    rearranged, never changed otherwise, and a comparison that is
    transitive and total leaves it in that order. *)
Definition sorts (sort_Slice : (Rec → Rec → bool) → list Rec → list Rec) : Prop :=
  (∀ lt l, sort_Slice lt l ≡ₚ l) ∧
  (∀ lt l,
      (∀ a b c, lt a b = true → lt b c = true → lt a c = true) →
      (∀ a b, lt a b = true ∨ lt b a = true) →
      StronglySorted (fun a b => lt a b = true) (sort_Slice lt l)).

(** The library's insertion sort, which [sort.Slice] runs on short
    slices: every element is swapped towards the front while it is
    [less] than its left neighbour.  [sift] works on the sorted prefix
    back to front. *)
Fixpoint sift (lt : Rec → Rec → bool) (x : Rec) (prefix_rev : list Rec) : list Rec :=
  match prefix_rev with
  | [] => [x]
  | y :: rest => if lt x y then y :: sift lt x rest else x :: prefix_rev
  end.

Definition insertionSort (lt : Rec → Rec → bool) (l : list Rec) : list Rec :=
  reverse (foldl (fun prefix_rev x => sift lt x prefix_rev) [] l).

(** The order the output is to have, in the words of the
    specification: keys compared byte by byte as unsigned numbers, the
    first difference decides. *)
Inductive lex_le : list byte → list byte → Prop :=
| lex_le_nil b : lex_le [] b
| lex_le_lt x y a b : (Byte.to_N x < Byte.to_N y)%N → lex_le (x :: a) (y :: b)
| lex_le_eq x a b : lex_le a b → lex_le (x :: a) (x :: b).

Definition key_le (a b : Rec) : Prop := lex_le (Key a) (Key b).

(** A record on the output: key, then value. *)
Definition record_bytes (r : Rec) : list byte := Key r ++ Value r.

End Merge.

(** ** The termination barrier (lines 83-98, 100-137, 163-164, 243) *)

Module Barrier.
Import Codec.

(** A [receiveData] goroutine is in its read loop, or blocked on the
    send of line 123 (the channel is unbuffered), or has returned, in
    which case its deferred [close(dataChannel)] has run. *)
Inductive reader : Type :=
| Reading (conn : Stream)
| Sending (r : Rec) (conn : Stream)
| Returned.

(** One accepted connection with its channel.  [origin] and [handed]
    are history: the stream as it was accepted, and the records the
    collector has taken from the channel. *)
Record inbound : Type := mkInbound {
  origin : Stream;
  handed : list Rec;
  rd : reader
}.

(** [collectReceivedData]: not yet spawned, ranging over
    [nodeChannels[i]], or past [waitGroup.Done()]. *)
Inductive collector : Type :=
| NotStarted
| Draining (i : nat)
| Finished.

(** [main]: anywhere before [waitGroup.Wait()] has returned, or past
    line 244 with the slice [records] it has built. *)
Inductive mainpc : Type :=
| BeforeWait
| Merging (records : list Rec).

Record node : Type := mkNode {
  nodeChannels : list inbound;
  coll : collector;
  receivedRecords : list Rec;
  waitGroup : nat;
  pc : mainpc
}.

(** After [waitGroup.Add(1)] (line 163). *)
Definition init : node :=
  {| nodeChannels := []; coll := NotStarted; receivedRecords := [];
     waitGroup := 1; pc := BeforeWait |}.

Definition set_reader (i : nat) (ib : inbound) (s : node) : node :=
  {| nodeChannels := <[i := ib]> (nodeChannels s); coll := coll s;
     receivedRecords := receivedRecords s; waitGroup := waitGroup s;
     pc := pc s |}.

(** One step of one goroutine.  A reader whose stream ends inside a
    frame has no step: the process exits there.  The steps the other
    goroutines keep in this relation only add states to the runs. *)
Inductive step (numServers : Z) (ownRecords : list Rec) : node → node → Prop :=
| step_accept s conn :
    (* lines 85-95; [clientConnections] and [nodeChannels] grow together *)
    coll s = NotStarted →
    Z.of_nat (length (nodeChannels s)) ≠ (numServers - 1)%Z →
    step numServers ownRecords s
      {| nodeChannels := nodeChannels s ++ [mkInbound conn [] (Reading conn)];
         coll := NotStarted; receivedRecords := receivedRecords s;
         waitGroup := waitGroup s; pc := pc s |}
| step_spawn s :
    (* lines 85-87 *)
    coll s = NotStarted →
    Z.of_nat (length (nodeChannels s)) = (numServers - 1)%Z →
    step numServers ownRecords s
      {| nodeChannels := nodeChannels s; coll := Draining 0;
         receivedRecords := receivedRecords s;
         waitGroup := waitGroup s; pc := pc s |}
| step_read_data s i ib conn data conn' r :
    (* lines 108-122 *)
    nodeChannels s !! i = Some ib →
    rd ib = Reading conn →
    read_frame conn = Ok (data, conn') →
    decode_frame data = Ok (Some r) →
    step numServers ownRecords s
      (set_reader i (mkInbound (origin ib) (handed ib) (Sending r conn')) s)
| step_read_terminator s i ib conn data conn' :
    (* lines 108-119, 125, 101 *)
    nodeChannels s !! i = Some ib →
    rd ib = Reading conn →
    read_frame conn = Ok (data, conn') →
    decode_frame data = Ok None →
    step numServers ownRecords s
      (set_reader i (mkInbound (origin ib) (handed ib) Returned) s)
| step_handoff s i ib r conn :
    (* line 123 meets lines 132-133 *)
    coll s = Draining i →
    nodeChannels s !! i = Some ib →
    rd ib = Sending r conn →
    step numServers ownRecords s
      {| nodeChannels :=
           <[i := mkInbound (origin ib) (handed ib ++ [r]) (Reading conn)]> (nodeChannels s);
         coll := Draining i;
         receivedRecords := receivedRecords s ++ [r];
         waitGroup := waitGroup s; pc := pc s |}
| step_closed s i ib :
    (* the range of line 132 ends, line 131 *)
    coll s = Draining i →
    nodeChannels s !! i = Some ib →
    rd ib = Returned →
    step numServers ownRecords s
      {| nodeChannels := nodeChannels s; coll := Draining (S i);
         receivedRecords := receivedRecords s;
         waitGroup := waitGroup s; pc := pc s |}
| step_done s i :
    (* lines 131, 136 *)
    coll s = Draining i →
    length (nodeChannels s) ≤ i →
    step numServers ownRecords s
      {| nodeChannels := nodeChannels s; coll := Finished;
         receivedRecords := receivedRecords s;
         waitGroup := waitGroup s - 1; pc := pc s |}
| step_wait s :
    (* lines 242-244 *)
    pc s = BeforeWait →
    waitGroup s = 0 →
    step numServers ownRecords s
      {| nodeChannels := nodeChannels s; coll := coll s;
         receivedRecords := receivedRecords s;
         waitGroup := waitGroup s;
         pc := Merging (([] ++ ownRecords) ++ receivedRecords s) |}.

(** The states a run can be in. *)
Inductive reachable (numServers : Z) (ownRecords : list Rec) : node → Prop :=
| reachable_init : reachable numServers ownRecords init
| reachable_step s s' :
    reachable numServers ownRecords s →
    step numServers ownRecords s s' →
    reachable numServers ownRecords s'.

(** The barrier has fired: [waitGroup.Wait()] no longer blocks. *)
Definition fired (s : node) : Prop := waitGroup s = 0.

(** The reader of a connection has seen the terminator frame, and the
    collector holds all the records that came before it. *)
Definition drained (ib : inbound) : Prop :=
  rd ib = Returned ∧ receiveData (origin ib) = Ok (handed ib).

(** *** The invariant of the runs *)

(** [receiveData] resumed on [conn] with [ch] already sent. *)
Definition resume (conn : Stream) (ch : list Rec) : outcome (list Rec) :=
  receiveData_loop (S (length (pending conn))) conn ch.

(** Where a reader stands in the run of [receiveData] on the stream it
    was given. *)
Definition reader_inv (ib : inbound) : Prop :=
  match rd ib with
  | Reading conn => receiveData (origin ib) = resume conn (handed ib)
  | Sending r conn => receiveData (origin ib) = resume conn (handed ib ++ [r])
  | Returned => receiveData (origin ib) = Ok (handed ib)
  end.

(** Where the collector stands: the channels before its index are
    closed, the ones after it have not been received from. *)
Definition collector_inv (numServers : Z) (s : node) : Prop :=
  match coll s with
  | NotStarted =>
      waitGroup s = 1 ∧
      ∀ j ib, nodeChannels s !! j = Some ib → handed ib = []
  | Draining i =>
      waitGroup s = 1 ∧
      Z.of_nat (length (nodeChannels s)) = (numServers - 1)%Z ∧
      (∀ j ib, nodeChannels s !! j = Some ib → j < i → rd ib = Returned) ∧
      (∀ j ib, nodeChannels s !! j = Some ib → i < j → handed ib = [])
  | Finished =>
      waitGroup s = 0 ∧
      Z.of_nat (length (nodeChannels s)) = (numServers - 1)%Z ∧
      ∀ j ib, nodeChannels s !! j = Some ib → rd ib = Returned
  end.

Definition inv (numServers : Z) (ownRecords : list Rec) (s : node) : Prop :=
  Forall reader_inv (nodeChannels s) ∧
  collector_inv numServers s ∧
  receivedRecords s = concat (handed <$> nodeChannels s) ∧
  ∀ records, pc s = Merging records →
             coll s = Finished ∧ records = ownRecords ++ receivedRecords s.

End Barrier.

(** ** The sorting routine of the library

    [sort.Slice] takes a slice of any element type; [sorts_of] is what
    the program relies on at each of its two calls: the slice is
    rearranged, never changed otherwise, and a comparison that is
    transitive and total leaves it in that order. *)

Module GoSort.

Definition sorts_of {A : Type} (sort_Slice : (A → A → bool) → list A → list A) : Prop :=
  (∀ lt l, sort_Slice lt l ≡ₚ l) ∧
  (∀ lt l,
      (∀ a b c, lt a b = true → lt b c = true → lt a c = true) →
      (∀ a b, lt a b = true ∨ lt b a = true) →
      StronglySorted (fun a b => lt a b = true) (sort_Slice lt l)).

(** The library's insertion sort on any element type (the one
    [sort.Slice] runs on short slices). *)
Fixpoint sift_of {A : Type} (lt : A → A → bool) (x : A) (prefix_rev : list A) : list A :=
  match prefix_rev with
  | [] => [x]
  | y :: rest => if lt x y then y :: sift_of lt x rest else x :: prefix_rev
  end.

Definition insertionSort_of {A : Type} (lt : A → A → bool) (l : list A) : list A :=
  reverse (foldl (fun prefix_rev x => sift_of lt x prefix_rev) [] l).

End GoSort.

(** ** The cluster topology (lines 34-40, 67-69, 149-157) *)

Module Topology.

(** One entry of [ServerConfig.Servers]. *)
Record Server : Type := mkServer { ServerID : Z; Host : string; Port : string }.

(** [getAddress(host, port)]. *)
Definition getAddress (host port : string) : string :=
  host +:+ ":" +:+ port.

(** The closure of line 151, on the entries it indexes. *)
Definition by_ServerID (a b : Server) : bool :=
  (ServerID a <=? ServerID b)%Z.

(** [s[i]] on a slice with an [int] index: out of range is a run-time
    panic. *)
Definition index {A : Type} (s : list A) (i : Z) : outcome A :=
  if decide (0 ≤ i)%Z then
    match s !! Z.to_nat i with
    | Some x => Ok x
    | None => Panic
    end
  else Panic.

Section WithSort.

Variable sort_Slice : (Server → Server → bool) → list Server → list Server.

(** Lines 150-157: the entries sorted by id, [numServers], and the
    address this node listens on. *)
Definition own_address (servers : list Server) (serverID : Z)
  : outcome (list Server * Z * string) :=
  let servers := sort_Slice by_ServerID servers in
  let numServers := Z.of_nat (length servers) in
  sv ← index servers serverID;
  Ok (servers, numServers, getAddress (Host sv) (Port sv)).

(** Lines 178-180: the address dialled for peer [i]. *)
Definition peer_address (servers : list Server) (i : Z) : outcome string :=
  let servers := sort_Slice by_ServerID servers in
  sv ← index servers i;
  Ok (getAddress (Host sv) (Port sv)).

End WithSort.

End Topology.

(** ** Dialling a peer (lines 71-81) *)

Module Transport.

Inductive neterr : Type := ECONNREFUSED.

(** [waitTime := time.Duration(250)], slept as [waitTime *
    time.Millisecond]: the clock counts milliseconds. *)
Definition waitTime : Z := 250.

Section Dial.

Context {Conn : Type}.

(** [connectToSocket(address)].  [dials] is what the successive
    [net.Dial] calls meet: [None] is a refused dial, [Some conn] an
    established connection.  The result is the two values returned,
    the clock and the number of errors logged by
    [checkErrorWithoutExit].  The loop has no other exit than a
    successful dial: when [dials] holds none, it is still running. *)
Fixpoint connectToSocket (dials : list (option Conn)) (clock : Z) (logged : nat)
  : outcome (Conn * option neterr * Z * nat) :=
  match dials with
  | [] => OutOfFuel
  | Some conn :: _ => Ok (conn, None, clock, logged)
  | None :: dials' => connectToSocket dials' (clock + waitTime)%Z (S logged)
  end.

End Dial.

End Transport.

(** ** Runs that get to the merge *)

Module Liveness.
Import Codec Barrier.





End Liveness.

(** ** Sample data *)

Module Samples.
Import Codec Barrier.

Definition rec_ff : Rec := mkRecord (replicate 10 xff) (replicate 90 xff).
Definition rec_00 : Rec := mkRecord (replicate 10 x00) (replicate 90 x00).
Definition rec_40 : Rec := mkRecord (x40 :: replicate 9 x11) (replicate 90 x2a).
Definition rec_10 : Rec := mkRecord (x10 :: replicate 9 x22) (replicate 90 x2b).
Definition rec_80 : Rec := mkRecord (x80 :: replicate 9 x33) (replicate 90 x2c).

(** One data frame and the terminator, as a peer sends them. *)
Definition peer_stream : Stream :=
  mkStream (data_frame rec_10 ++ terminator_frame) [1; 7; 200].

(** A node of a cluster of two after its only peer has sent
    [peer_stream] and [main] has gone past the barrier. *)
Definition merged : node :=
  {| nodeChannels := [mkInbound peer_stream [rec_10] Returned];
     coll := Finished; receivedRecords := [rec_10]; waitGroup := 0;
     pc := Merging [rec_40; rec_10] |}.

End Samples.

(** ** More sample data *)

Module ClusterSamples.
Import Codec Topology Samples.

(** A topology file of two nodes, listed out of order. *)
Definition two_servers : list Server :=
  [mkServer 1 "10.0.0.2" "8081"; mkServer 0 "10.0.0.1" "8080"].

(** The shards of a cluster of two. *)
Definition two_shards (i : Z) : list Rec :=
  if decide (i = 0%Z) then [rec_80; rec_40] else [rec_10].

(** The outputs of a cluster of two, node 0 first. *)
Definition two_outputs : list (list Rec) :=
  [[rec_10; rec_40]; [rec_80; rec_ff]].

End ClusterSamples.

(** * Properties *)

(** ** Reading frames *)

Section CodecFacts.
Import Codec.

Lemma Read_some want s :
  want ≠ 0 → pending s ≠ [] →
  ∃ k, 1 ≤ k ≤ want ∧
       Read want s = (take k (pending s), None,
                      mkStream (drop k (pending s)) (tail (chunks s))).
Proof.
  intros Hw Hp. unfold Read.
  destruct want as [|w]; [done|].
  destruct (pending s) as [|b p] eqn:E; [done|].
  eexists; split; [|reflexivity].
  destruct (chunks s); lia.
Qed.

Lemma Read_eof want s :
  want ≠ 0 → pending s = [] → Read want s = ([], Some EOF, s).
Proof.
  intros Hw Hp. unfold Read. rewrite Hp. by destruct want.
Qed.

Lemma drop_tail {A} k (l : list A) : drop k (tail l) = drop (S k) l.
Proof. destruct l; cbn [tail]; [by rewrite !drop_nil | done]. Qed.

(** The loop gathers the rest of the frame and leaves what follows. *)
Lemma read_loop_gathers fuel data front rest sched :
  length data + length front = 101 → front ≠ [] → length front ≤ fuel →
  ∃ k,
    read_loop fuel (length data) data (mkStream (front ++ rest) sched)
    = Ok (data ++ front, mkStream rest (drop k sched)).
Proof.
  revert data front sched.
  induction fuel as [|fuel IH]; intros data front sched Hlen Hne Hfuel.
  { destruct front; [done | simpl in Hfuel; lia]. }
  assert (length front ≠ 0) as Hfl by (by destruct front).
  destruct (Read_some (101 - length data) (mkStream (front ++ rest) sched))
    as (k & Hk & HR); [lia | by destruct front |].
  simpl in HR. cbn [read_loop]. rewrite HR. cbn -[Nat.leb].
  assert (k ≤ length front) as Hkf by lia.
  rewrite (take_app_le front rest k Hkf), (drop_app_le front rest k Hkf).
  rewrite length_take, Nat.min_l by done.
  destruct (101 <=? length data + k) eqn:Hdone.
  - apply Nat.leb_le in Hdone.
    assert (k = length front) as -> by lia.
    rewrite firstn_all, drop_all. exists 1. by rewrite <- drop_tail.
  - apply Nat.leb_gt in Hdone.
    destruct (IH (data ++ take k front) (drop k front) (tail sched))
      as (k' & Hrec).
    + rewrite length_app, length_take, length_drop. lia.
    + intros Hnil. apply (f_equal length) in Hnil.
      rewrite length_drop in Hnil. simpl in Hnil. lia.
    + rewrite length_drop. lia.
    + rewrite length_app, length_take, Nat.min_l in Hrec by done.
      rewrite Hrec, <- (assoc_L (++)), take_drop, drop_tail. eauto.
Qed.

(** A stream that ends inside a frame is a fatal error, however the
    bytes come in. *)
Lemma read_loop_truncated fuel n data conn :
  n < 101 → length (pending conn) < 101 - n → length (pending conn) < fuel →
  read_loop fuel n data conn = Fatal.
Proof.
  revert n data conn.
  induction fuel as [|fuel IH]; intros n data conn Hn Hshort Hfuel; [lia|].
  cbn [read_loop].
  destruct (decide (pending conn = [])) as [Hp|Hp].
  { rewrite Read_eof by (done || lia). done. }
  destruct (Read_some (101 - n) conn) as (k & Hk & HR); [lia | done |].
  rewrite HR. cbn -[Nat.leb].
  assert (1 ≤ length (pending conn)) as Hpl
    by (destruct (pending conn); [done | simpl; lia]).
  rewrite length_take.
  destruct (101 <=? n + k `min` length (pending conn)) eqn:Hdone.
  { apply Nat.leb_le in Hdone. lia. }
  apply Nat.leb_gt in Hdone.
  apply IH; cbn [pending]; rewrite ?length_drop; lia.
Qed.

Lemma read_frame_drop frame rest sched :
  length frame = 101 →
  ∃ k, read_frame (mkStream (frame ++ rest) sched)
       = Ok (frame, mkStream rest (drop k sched)).
Proof.
  intros Hlen. unfold read_frame.
  destruct (read_loop_gathers 101 [] frame rest sched) as (k & H);
    [cbn [length]; lia | by destruct frame | lia |].
  exists k. exact H.
Qed.

Lemma read_frame_full frame rest sched :
  length frame = 101 →
  ∃ sched', read_frame (mkStream (frame ++ rest) sched)
            = Ok (frame, mkStream rest sched').
Proof.
  intros Hlen. destruct (read_frame_drop frame rest sched Hlen) as (k & H). eauto.
Qed.

(** A stream served in full reads gives the frame in one read. *)
Lemma read_frame_single frame rest :
  length frame = 101 →
  read_frame (mkStream (frame ++ rest) []) = Ok (frame, mkStream rest []).
Proof.
  intros Hlen. destruct (read_frame_drop frame rest [] Hlen) as (k & H).
  by rewrite drop_nil in H.
Qed.

Lemma read_frame_truncated conn :
  length (pending conn) < 101 → read_frame conn = Fatal.
Proof. intros H. apply read_loop_truncated; lia. Qed.

(** [read_frame] in one equation: 101 bytes or a fatal error. *)
Lemma read_frame_spec conn :
  (101 ≤ length (pending conn) ∧
   ∃ sched', read_frame conn
             = Ok (take 101 (pending conn),
                   mkStream (drop 101 (pending conn)) sched'))
  ∨ (length (pending conn) < 101 ∧ read_frame conn = Fatal).
Proof.
  destruct (le_lt_dec 101 (length (pending conn))) as [Hle|Hlt].
  - left. split; [done|].
    destruct conn as [p sched]. cbn [pending] in *.
    destruct (read_frame_full (take 101 p) (drop 101 p) sched) as (sched' & H);
      [rewrite length_take; lia|].
    rewrite take_drop in H. eauto.
  - right. split; [done|]. by apply read_frame_truncated.
Qed.

Lemma read_frame_consumes conn data conn' :
  read_frame conn = Ok (data, conn') →
  length data = 101 ∧ length (pending conn) = 101 + length (pending conn').
Proof.
  intros H.
  destruct (read_frame_spec conn) as [(Hle & sched' & E)|(_ & E)];
    rewrite E in H; [|done].
  injection H as <- <-. cbn [pending].
  rewrite length_take, length_drop. lia.
Qed.

End CodecFacts.

(** ** The reader *)

Section ReaderFacts.
Import Codec.

Lemma receiveData_loop_S fuel conn ch :
  receiveData_loop (S fuel) conn ch
  = '(data, conn') ← read_frame conn;
    d ← decode_frame data;
    match d with
    | Some r => receiveData_loop fuel conn' (ch ++ [r])
    | None => Ok ch
    end.
Proof. reflexivity. Qed.

(** Any fuel above the number of pending bytes gives the same run. *)
Lemma receiveData_loop_enough f1 f2 conn ch :
  length (pending conn) < f1 → length (pending conn) < f2 →
  receiveData_loop f1 conn ch = receiveData_loop f2 conn ch.
Proof.
  revert f2 conn ch.
  induction f1 as [|f1 IH]; intros [|f2] conn ch H1 H2; try lia.
  rewrite !receiveData_loop_S.
  destruct (read_frame conn) as [[data conn']| | |] eqn:E; try done.
  apply read_frame_consumes in E as [_ E].
  cbn [mbind outcome_bind]. destruct (decode_frame data) as [[r|]| | |]; try done.
  cbn [mbind outcome_bind]. apply IH; lia.
Qed.

(** The loop of [receiveData], one frame at a time. *)
Lemma receiveData_loop_step conn ch :
  receiveData_loop (S (length (pending conn))) conn ch
  = '(data, conn') ← read_frame conn;
    d ← decode_frame data;
    match d with
    | Some r => receiveData_loop (S (length (pending conn'))) conn' (ch ++ [r])
    | None => Ok ch
    end.
Proof.
  rewrite receiveData_loop_S.
  destruct (read_frame conn) as [[data conn']| | |] eqn:E; try done.
  apply read_frame_consumes in E as [_ E].
  cbn [mbind outcome_bind]. destruct (decode_frame data) as [[r|]| | |]; try done.
  cbn [mbind outcome_bind]. apply receiveData_loop_enough; lia.
Qed.

(** The sizes of the reads have no part in what the reader does. *)
Lemma receiveData_loop_chunks fuel p sched1 sched2 ch :
  receiveData_loop fuel (mkStream p sched1) ch
  = receiveData_loop fuel (mkStream p sched2) ch.
Proof.
  revert p sched1 sched2 ch.
  induction fuel as [|fuel IH]; intros p sched1 sched2 ch; [done|].
  rewrite !receiveData_loop_S.
  destruct (read_frame_spec (mkStream p sched1)) as [(Hle1 & s1 & E1)|(Hlt & E1)];
    destruct (read_frame_spec (mkStream p sched2)) as [(Hle & s2 & E2)|(Hlt' & E2)];
    cbn [pending] in *; try lia; rewrite E1, E2; [|done].
  cbn [mbind outcome_bind]. destruct (decode_frame (take 101 p)) as [[r|]| | |]; try done.
  cbn [mbind outcome_bind]. apply IH.
Qed.

Lemma data_frame_cons r : data_frame r = x00 :: Key r ++ Value r.
Proof. reflexivity. Qed.

Lemma terminator_frame_cons : terminator_frame = x01 :: zero_array 100.
Proof. reflexivity. Qed.

Lemma length_data_frame r : wf_Record r → length (data_frame r) = 101.
Proof.
  intros [HK HV]. rewrite data_frame_cons. cbn [length].
  rewrite length_app. lia.
Qed.

(** The record of a frame, by position. *)
Lemma frame_record_positions data :
  101 ≤ length data →
  frame_record data
  = {| Key := take 10 (drop 1 data); Value := take 90 (drop 11 data) |}.
Proof.
  intros Hlen. unfold frame_record, copy, slice, zero_array.
  rewrite !length_take, !length_drop, !length_replicate.
  replace ((11 - 1) `min` (length data - 1)) with 10 by lia.
  replace ((101 - 11) `min` (length data - 11)) with 90 by lia.
  rewrite !drop_replicate, !Nat.sub_diag. cbn [replicate].
  rewrite !app_nil_r.
  f_equal; apply take_take.
Qed.

Lemma frame_record_data_frame r :
  wf_Record r → frame_record (data_frame r) = r.
Proof.
  intros [HK HV].
  rewrite frame_record_positions by (rewrite length_data_frame; done).
  rewrite data_frame_cons. destruct r as [K V]; cbn [Key Value] in *.
  f_equal.
  - change (drop 1 (x00 :: K ++ V)) with (K ++ V).
    rewrite take_app_le by lia. by rewrite <- HK, firstn_all.
  - change (drop 11 (x00 :: K ++ V)) with (drop 10 (K ++ V)).
    rewrite drop_app_length' by done. by rewrite <- HV, firstn_all.
Qed.

Lemma decode_frame_data_frame r :
  wf_Record r → decode_frame (data_frame r) = Ok (Some r).
Proof.
  intros Hwf. unfold decode_frame. rewrite data_frame_cons at 1.
  cbn [streamComplete]. change (Byte.eqb x00 x01) with false. cbn match.
  by rewrite frame_record_data_frame.
Qed.

Lemma decode_frame_control ctl body :
  decode_frame (ctl :: body)
  = if Byte.eqb ctl x01 then Ok None else Ok (Some (frame_record (ctl :: body))).
Proof. unfold decode_frame. cbn [streamComplete]. by destruct (Byte.eqb ctl x01). Qed.

(** A stream of data frames and a terminator: the reader hands over
    the records and returns. *)
Lemma receiveData_loop_frames recs rest sched ch fuel :
  Forall wf_Record recs → length recs < fuel →
  receiveData_loop fuel
    (mkStream (flat_map data_frame recs ++ terminator_frame ++ rest) sched) ch
  = Ok (ch ++ recs).
Proof.
  revert sched ch fuel.
  induction recs as [|r recs IH]; intros sched ch [|fuel] Hwf Hfuel;
    cbn [length] in Hfuel; try lia.
  - cbn [flat_map app]. rewrite receiveData_loop_S.
    destruct (read_frame_full terminator_frame rest sched) as (s' & E); [done|].
    rewrite E. cbn [mbind outcome_bind]. by rewrite app_nil_r.
  - apply Forall_cons in Hwf as [Hr Hwf].
    cbn [flat_map]. rewrite receiveData_loop_S, <- (assoc_L (++)).
    destruct (read_frame_full (data_frame r)
                (flat_map data_frame recs ++ terminator_frame ++ rest) sched)
      as (s' & E); [by apply length_data_frame|].
    rewrite E. cbn [mbind outcome_bind]. rewrite decode_frame_data_frame by done. cbn.
    rewrite IH by (done || lia). by rewrite <- (assoc_L (++)).
Qed.

(** [receiveData] always comes to an end: it returns or the process
    exits. *)
Lemma receiveData_loop_returns fuel conn ch :
  length (pending conn) < fuel → receiveData_loop fuel conn ch ≠ OutOfFuel.
Proof.
  revert conn ch. induction fuel as [|fuel IH]; intros conn ch Hfuel; [lia|].
  rewrite receiveData_loop_S.
  destruct (read_frame_spec conn) as [(Hle & s' & E)|(_ & E)]; rewrite E; [|done].
  cbn [mbind outcome_bind].
  destruct (decode_frame _) as [[r|]| | |] eqn:Hd; cbn [mbind outcome_bind];
    try done.
  - apply IH. cbn [pending]. rewrite length_drop. lia.
  - unfold decode_frame in Hd. destruct (streamComplete _) as [[]|]; done.
Qed.

Lemma receiveData_returns conn : receiveData conn ≠ OutOfFuel.
Proof. apply receiveData_loop_returns. lia. Qed.

End ReaderFacts.

Section CodecClaims.
Import Codec.

Lemma length_flat_map_data_frame recs :
  Forall wf_Record recs →
  length (flat_map data_frame recs) = 101 * length recs.
Proof.
  induction 1 as [|r recs Hr _ IH]; [done|].
  cbn [flat_map length]. rewrite length_app, IH, length_data_frame by done. lia.
Qed.

Lemma receiveData_frames recs sched :
  Forall wf_Record recs →
  receiveData (mkStream (flat_map data_frame recs ++ terminator_frame) sched)
  = Ok recs.
Proof.
  intros Hwf. unfold receiveData. cbn [pending].
  rewrite <- (app_nil_r terminator_frame) at 2.
  rewrite receiveData_loop_frames; [done | done |].
  rewrite length_app, length_flat_map_data_frame by done. lia.
Qed.

(** C5.  A record written as a data frame (control byte 0, key,
    value: 101 bytes) and read back from the connection is the same
    record, whatever its bytes are, whatever follows it on the stream
    and however the stream is cut into reads; a reader that is sent
    the frame and a terminator hands over exactly that record. *)
Theorem frame_round_trip (r : Rec) (rest : list byte) (sched : list nat) :
  wf_Record r →
  data_frame r = x00 :: Key r ++ Value r ∧
  length (data_frame r) = 101 ∧
  (∃ sched', read_frame (mkStream (data_frame r ++ rest) sched)
             = Ok (data_frame r, mkStream rest sched')) ∧
  decode_frame (data_frame r) = Ok (Some r) ∧
  receiveData (mkStream (data_frame r ++ terminator_frame) sched) = Ok [r].
Proof.
  intros Hwf. split_and!.
  - apply data_frame_cons.
  - by apply length_data_frame.
  - apply read_frame_full. by apply length_data_frame.
  - by apply decode_frame_data_frame.
  - rewrite <- (receiveData_frames [r] sched) by (by constructor).
    cbn [flat_map]. by rewrite app_nil_r.
Qed.

(** C6.  The read loop returns exactly the 101 bytes of the frame and
    leaves the bytes of the next frame on the connection, for every
    way of cutting the stream into reads; the frame it returns, and
    the whole run of the reader, are the ones of a stream served in
    single full reads. *)
Theorem partial_reads (frame rest stream : list byte) (sched : list nat) :
  length frame = 101 →
  (∃ sched', read_frame (mkStream (frame ++ rest) sched)
             = Ok (frame, mkStream rest sched')) ∧
  read_frame (mkStream (frame ++ rest) []) = Ok (frame, mkStream rest []) ∧
  receiveData (mkStream stream sched) = receiveData (mkStream stream []).
Proof.
  intros Hlen. split_and!.
  - by apply read_frame_full.
  - by apply read_frame_single.
  - apply receiveData_loop_chunks.
Qed.

(** C8.  A connection that carries a terminator frame and no data
    frame: the reader returns without an error and its channel is
    closed having carried no record, whatever the 100 payload bytes
    of the terminator are. *)
Theorem terminator_only (payload : list byte) (sched : list nat) :
  length payload = 100 →
  receiveData (mkStream (x01 :: payload) sched) = Ok [].
Proof.
  intros Hlen. unfold receiveData. rewrite receiveData_loop_S.
  destruct (read_frame_full (x01 :: payload) [] sched) as (s' & E);
    [cbn [length]; lia|].
  rewrite app_nil_r in E. rewrite E. cbn [mbind outcome_bind].
  by rewrite decode_frame_control.
Qed.

(** C10.  A complete frame whose control byte is not 1 is a data
    frame whatever the byte is: bytes 1 to 10 are the key and bytes 11
    to 100 the value of the record that is sent on the channel, no
    error is raised and the reader goes on with the next frame.  A
    control byte equal to 1, and only that, makes the reader return. *)
Theorem control_byte_dispatch (data rest : list byte) (sched : list nat)
    (ch : list Rec) (fuel : nat) :
  length data = 101 →
  let r := {| Key := take 10 (drop 1 data); Value := take 90 (drop 11 data) |} in
  (head data ≠ Some x01 →
     decode_frame data = Ok (Some r) ∧ wf_Record r ∧
     ∃ sched', receiveData_loop (S fuel) (mkStream (data ++ rest) sched) ch
               = receiveData_loop fuel (mkStream rest sched') (ch ++ [r])) ∧
  (head data = Some x01 →
     decode_frame data = Ok None ∧
     receiveData_loop (S fuel) (mkStream (data ++ rest) sched) ch = Ok ch) ∧
  (decode_frame data = Ok None → head data = Some x01).
Proof.
  intros Hlen r.
  destruct data as [|ctl body]; [done|].
  destruct (read_frame_full (ctl :: body) rest sched Hlen) as (s' & E).
  pose proof (decode_frame_control ctl body) as Hd.
  rewrite frame_record_positions in Hd by lia. fold r in Hd.
  cbn [head]. split_and!.
  - intros Hne. destruct (Byte.eqb ctl x01) eqn:Hc.
    { apply Byte.byte_dec_bl in Hc. congruence. }
    split_and!; [done| |].
    + unfold wf_Record, r. cbn [Key Value].
      rewrite !length_take, !length_drop. lia.
    + exists s'. rewrite receiveData_loop_S, E. cbn [mbind outcome_bind].
      by rewrite Hd.
  - intros [= ->]. change (Byte.eqb x01 x01) with true in Hd. split; [done|].
    rewrite receiveData_loop_S, E. cbn [mbind outcome_bind]. by rewrite Hd.
  - intros Hnone. destruct (Byte.eqb ctl x01) eqn:Hc.
    + apply Byte.byte_dec_bl in Hc. by subst.
    + congruence.
Qed.

End CodecClaims.

(** ** The partition function *)

Section PartitionClaims.
Import Codec Partition.
#[local] Open Scope Z_scope.

Lemma power_of_two_spec n :
  0 < n → power_of_two n = true ↔ ∃ k, 0 ≤ k ∧ n = 2 ^ k.
Proof.
  intros Hn. unfold power_of_two. rewrite Z.eqb_eq. split.
  - intros H. exists (Z.log2 n). split; [apply Z.log2_nonneg | done].
  - intros (k & Hk & ->). by rewrite Z.log2_pow2.
Qed.

Lemma byte_val_range b : 0 ≤ byte_val b < 256.
Proof. unfold byte_val. pose proof (Byte.to_N_bounded b). lia. Qed.

Lemma byte_val_high_bits b m : 8 ≤ m → Z.testbit (byte_val b) m = false.
Proof.
  intros Hm. pose proof (byte_val_range b).
  apply Z.testbit_false; [lia|].
  rewrite Z.div_small; [done|].
  split; [lia|]. apply Z.lt_le_trans with (2 ^ 8); [lia|].
  apply Z.pow_le_mono_r; lia.
Qed.

Lemma destination_cons b tl n :
  destination (b :: tl) n = shr (byte_val b) (8 - Z.log2 n).
Proof. reflexivity. Qed.

Lemma shr_range b bits :
  0 ≤ bits ≤ 8 → 0 ≤ Z.shiftr (byte_val b) (8 - bits) < 2 ^ bits.
Proof.
  intros Hb. pose proof (byte_val_range b).
  rewrite Z.shiftr_div_pow2 by lia.
  assert (0 < 2 ^ (8 - bits)) by (apply Z.pow_pos_nonneg; lia).
  split; [apply Z.div_pos; lia|].
  apply Z.div_lt_upper_bound; [done|].
  rewrite <- Z.pow_add_r by lia.
  replace (8 - bits + bits) with 8 by lia. lia.
Qed.

Lemma shr_top_bits b b' bits :
  0 ≤ bits ≤ 8 → same_top_bits bits b b' →
  Z.shiftr (byte_val b') (8 - bits) = Z.shiftr (byte_val b) (8 - bits).
Proof.
  intros Hb Htop. apply Z.bits_inj'. intros n Hn.
  rewrite !Z.shiftr_spec by done.
  destruct (Z_lt_le_dec (n + (8 - bits)) 8) as [Hlt|Hge].
  - apply Htop. lia.
  - by rewrite !byte_val_high_bits.
Qed.

(** C3, as the program has it.  For a cluster size that is a power of
    two and at most 256, and a key with a first byte, the destination
    is the first byte shifted right by [8 - log2 N]; it lies in
    [0, N), and keys whose first bytes have the same [log2 N] leading
    bits have the same destination. *)
Theorem destination_power_of_two (N : Z) (b : byte) (tl : list byte) :
  1 ≤ N ≤ 256 → power_of_two N = true →
  destination (b :: tl) N = Ok (Z.shiftr (byte_val b) (8 - Z.log2 N)) ∧
  0 ≤ Z.shiftr (byte_val b) (8 - Z.log2 N) < N ∧
  ∀ b' tl', same_top_bits (Z.log2 N) b b' →
            destination (b' :: tl') N = destination (b :: tl) N.
Proof.
  intros HN Hpow.
  apply Z.eqb_eq in Hpow.
  assert (0 ≤ Z.log2 N ≤ 8) as Hbits.
  { split; [apply Z.log2_nonneg|].
    change 8 with (Z.log2 256). apply Z.log2_le_mono. lia. }
  rewrite !destination_cons. unfold shr.
  destruct (Z.ltb_spec (8 - Z.log2 N) 0) as [?|_]; [lia|].
  split; [done|]. split.
  - pose proof (shr_range b (Z.log2 N) Hbits). lia.
  - intros b' tl' Htop. rewrite destination_cons. unfold shr.
    destruct (Z.ltb_spec (8 - Z.log2 N) 0) as [?|_]; [lia|].
    by rewrite (shr_top_bits b b').
Qed.

(** C3 as it is written fails at 512 nodes: 512 is a power of two, the
    shift count of line 205 is -1 there, and no destination comes out
    of it. *)
Lemma destination_512_undefined :
  power_of_two 512 = true ∧
  ¬ ∃ d, destination (zero_array 10) 512 = Ok d ∧ 0 ≤ d < 512.
Proof.
  split; [reflexivity|].
  intros (d & Hd & _). vm_compute in Hd. discriminate.
Qed.

(** C4.  For a cluster size that is not a power of two, every
    destination the program computes is below [2 ^ floor(log2 N)],
    which is itself below [N]: the ids from there on are never
    selected.  Below 512 nodes a destination is computed for every
    key with a first byte. *)
Theorem destination_coverage_gap (N : Z) (key : list byte) :
  1 ≤ N → power_of_two N = false →
  2 ^ Z.log2 N < N ∧
  (∀ d, destination key N = Ok d → 0 ≤ d < 2 ^ Z.log2 N) ∧
  (N < 512 → key ≠ [] → ∃ d, destination key N = Ok d).
Proof.
  intros HN Hpow. apply Z.eqb_neq in Hpow.
  pose proof (Z.log2_spec N) as [Hlo Hhi]; [lia|].
  pose proof (Z.log2_nonneg N) as Hnn.
  split_and!.
  - lia.
  - intros d Hd. destruct key as [|b tl]; [done|].
    rewrite destination_cons in Hd. unfold shr in Hd.
    destruct (Z.ltb_spec (8 - Z.log2 N) 0) as [?|Hc]; [done|].
    injection Hd as <-. apply shr_range. lia.
  - intros Hsmall Hkey. destruct key as [|b tl]; [done|].
    rewrite destination_cons. unfold shr.
    assert (Z.log2 N ≤ 8).
    { change 8 with (Z.log2 511). apply Z.log2_le_mono. lia. }
    destruct (Z.ltb_spec (8 - Z.log2 N) 0) as [?|_]; [lia|]. eauto.
Qed.

End PartitionClaims.

(** ** Merge and emit *)

Section MergeFacts.
Import Codec Merge.

Lemma to_N_inj x y : Byte.to_N x = Byte.to_N y → x = y.
Proof.
  intros H. apply (inj Some).
  by rewrite <- (Byte.of_to_N x), <- (Byte.of_to_N y), H.
Qed.

(** [bytes.Compare(a, b) <= 0] is the lexicographic order on unsigned
    bytes. *)
Lemma bytes_Compare_le a b :
  (bytes_Compare a b <=? 0)%Z = true ↔ lex_le a b.
Proof.
  revert b. induction a as [|x a IH]; intros [|y b]; cbn [bytes_Compare].
  - split; [constructor | done].
  - split; [constructor | done].
  - split; [done | inversion 1].
  - destruct (N.compare_spec (Byte.to_N x) (Byte.to_N y)) as [Heq|Hlt|Hgt].
    + apply to_N_inj in Heq as ->. rewrite IH. split.
      * apply lex_le_eq.
      * inversion 1; subst; [lia | done].
    + split; [by intros; apply lex_le_lt | done].
    + split; [done|]. inversion 1; subst; lia.
Qed.

Lemma lex_le_trans a b c : lex_le a b → lex_le b c → lex_le a c.
Proof.
  intros Hab. revert c.
  induction Hab as [b|x y a b Hxy|x a b Hab IH]; intros c Hbc.
  - constructor.
  - inversion Hbc; subst; apply lex_le_lt; lia.
  - inversion Hbc; subst; [by apply lex_le_lt|]. apply lex_le_eq. by apply IH.
Qed.

Lemma lex_le_total a b : lex_le a b ∨ lex_le b a.
Proof.
  revert b. induction a as [|x a IH]; intros [|y b];
    try (by left; constructor); try (by right; constructor).
  destruct (N.lt_trichotomy (Byte.to_N x) (Byte.to_N y)) as [Hlt|[Heq|Hgt]].
  - left. by apply lex_le_lt.
  - apply to_N_inj in Heq as ->.
    destruct (IH b); [left | right]; by apply lex_le_eq.
  - right. by apply lex_le_lt.
Qed.

Lemma less_key_le a b : less a b = true ↔ key_le a b.
Proof. apply bytes_Compare_le. Qed.

Lemma less_trans a b c : less a b = true → less b c = true → less a c = true.
Proof. rewrite !less_key_le. apply lex_le_trans. Qed.

Lemma less_total a b : less a b = true ∨ less b a = true.
Proof. rewrite !less_key_le. apply lex_le_total. Qed.

Lemma write_records_flat_map out records :
  write_records out records = out ++ flat_map record_bytes records.
Proof.
  unfold write_records. revert out.
  induction records as [|r records IH]; intros out; cbn [foldl flat_map].
  - by rewrite app_nil_r.
  - rewrite IH. unfold record_bytes. by rewrite <- !(assoc_L (++)).
Qed.

Lemma StronglySorted_weaken {A} (R1 R2 : A → A → Prop) l :
  (∀ x y, R1 x y → R2 x y) → StronglySorted R1 l → StronglySorted R2 l.
Proof. induction 2; constructor; eauto using Forall_impl. Qed.

Lemma length_record_bytes r : wf_Record r → length (record_bytes r) = 100.
Proof. intros [HK HV]. unfold record_bytes. rewrite length_app. lia. Qed.

(** In a concatenation of records the i-th block of 100 bytes is the
    i-th record. *)
Lemma flat_map_record_bytes_lookup records i r :
  Forall wf_Record records → records !! i = Some r →
  take 100 (drop (100 * i) (flat_map record_bytes records)) = record_bytes r.
Proof.
  intros Hwf. revert i.
  induction Hwf as [|r0 records Hr0 _ IH]; intros i Hi; [done|].
  cbn [flat_map]. pose proof (length_record_bytes r0 Hr0) as Hlen.
  destruct i as [|i]; cbn [lookup list_lookup] in Hi.
  - injection Hi as ->. rewrite Nat.mul_0_r, drop_0.
    rewrite take_app_le by lia. by rewrite <- Hlen, firstn_all.
  - replace (100 * S i) with (length (record_bytes r0) + 100 * i) by lia.
    rewrite drop_app_add'; [|done]. by apply IH.
Qed.

Lemma length_flat_map_record_bytes records :
  Forall wf_Record records →
  length (flat_map record_bytes records) = 100 * length records.
Proof.
  induction 1 as [|r records Hr _ IH]; [done|].
  cbn [flat_map length]. rewrite length_app, IH, length_record_bytes by done. lia.
Qed.

(** C1.  With [sort.Slice] a routine that sorts, the program past the
    barrier writes the records of the local buffer and of the received
    buffer, each once, ordered by their keys compared byte by byte as
    unsigned numbers; the file is the concatenation of the records,
    key then value, 100 bytes each with nothing in between. *)
Theorem merge_emit_sorted
    (sort_Slice : (Rec → Rec → bool) → list Rec → list Rec)
    (ownRecords received : list Rec) :
  sorts sort_Slice →
  let records := merge sort_Slice ownRecords received in
  let output := emit sort_Slice ownRecords received in
  records ≡ₚ ownRecords ++ received ∧
  StronglySorted key_le records ∧
  output = flat_map (fun r => Key r ++ Value r) records ∧
  (Forall wf_Record (ownRecords ++ received) →
   length output = 100 * length (ownRecords ++ received) ∧
   ∀ i r, records !! i = Some r →
          take 100 (drop (100 * i) output) = Key r ++ Value r).
Proof.
  intros [Hperm Hsort] records output.
  assert (records ≡ₚ ownRecords ++ received) as HP.
  { unfold records, merge. cbn [app]. apply Hperm. }
  assert (output = flat_map record_bytes records) as Hout.
  { unfold output, emit. by rewrite write_records_flat_map. }
  split_and!; [done | | done |].
  - unfold records, merge. cbn [app].
    eapply StronglySorted_weaken; [|apply Hsort].
    + intros x y. apply less_key_le.
    + apply less_trans.
    + apply less_total.
  - intros Hwf.
    assert (Forall wf_Record records) as Hwf' by (by rewrite HP).
    rewrite Hout. split.
    + by rewrite length_flat_map_record_bytes, HP.
    + intros i r Hi. by apply (flat_map_record_bytes_lookup records i r).
Qed.

(** The library's insertion sort meets [sorts]. *)
Lemma sift_perm lt x p : sift lt x p ≡ₚ x :: p.
Proof.
  induction p as [|y p IH]; cbn [sift]; [done|].
  destruct (lt x y); [|done]. rewrite IH. apply perm_swap.
Qed.

Lemma foldl_sift_perm lt l acc :
  foldl (fun p x => sift lt x p) acc l ≡ₚ l ++ acc.
Proof.
  revert acc. induction l as [|x l IH]; intros acc; cbn [foldl]; [done|].
  rewrite IH, sift_perm. symmetry. apply Permutation_middle.
Qed.

Lemma sift_sorted (lt : Rec → Rec → bool) x p :
  (∀ a b c, lt a b = true → lt b c = true → lt a c = true) →
  (∀ a b, lt a b = true ∨ lt b a = true) →
  StronglySorted (fun a b => lt b a = true) p →
  StronglySorted (fun a b => lt b a = true) (sift lt x p).
Proof.
  intros Htrans Htotal. induction 1 as [|y p Hp IH Hy]; cbn [sift].
  { repeat constructor. }
  destruct (lt x y) eqn:Hxy.
  - constructor; [done|]. rewrite sift_perm. by constructor.
  - assert (lt y x = true) as Hyx by (destruct (Htotal x y); congruence).
    constructor; [by constructor|].
    constructor; [done|].
    eapply Forall_impl; [exact Hy|]. intros z Hz. exact (Htrans _ _ _ Hz Hyx).
Qed.

Lemma StronglySorted_reverse {A} (R : A → A → Prop) l :
  StronglySorted (flip R) l → StronglySorted R (reverse l).
Proof.
  induction 1 as [|x l Hl IH Hx]; [constructor|].
  rewrite reverse_cons. apply StronglySorted_app_2; [|done|repeat constructor].
  intros x1 x2 Hx1 Hx2. apply list_elem_of_singleton in Hx2 as ->.
  rewrite elem_of_reverse in Hx1. rewrite Forall_forall in Hx. by apply Hx.
Qed.

Lemma insertionSort_sorts : sorts insertionSort.
Proof.
  split.
  - intros lt l. unfold insertionSort.
    by rewrite reverse_Permutation, foldl_sift_perm, app_nil_r.
  - intros lt l Htrans Htotal. unfold insertionSort.
    apply StronglySorted_reverse. unfold flip.
    generalize (@nil Rec) (SSorted_nil (fun a b => lt b a = true)).
    induction l as [|x l IH]; intros acc Hacc; cbn [foldl]; [done|].
    apply IH. by apply sift_sorted.
Qed.

End MergeFacts.

(** ** Ingest and dispatch *)

Section DispatchFacts.
Import Codec Partition Dispatch.

Lemma length_copy dst src : length (copy dst src) = length dst.
Proof.
  unfold copy. rewrite length_app, length_take, length_drop. lia.
Qed.

Lemma write_data_frame_app w r : write_data_frame w r = w ++ data_frame r.
Proof.
  unfold data_frame, write_data_frame. cbn [app].
  by rewrite <- !(assoc_L (++)).
Qed.

Lemma write_terminator_app w : write_terminator w = w ++ terminator_frame.
Proof.
  unfold terminator_frame, write_terminator. cbn [app].
  by rewrite <- !(assoc_L (++)).
Qed.

Lemma connect_peers_lookup N self p :
  connect_peers N self !! p
  = if decide (peer N self p) then Some connectToSocket else None.
Proof.
  unfold connect_peers, peer.
  assert (∀ l (acc : gmap Z (list byte)),
            foldl (fun connections i =>
                     if decide (i = self) then connections
                     else <[i := connectToSocket]> connections) acc l !! p
            = if decide (p ∈ l ∧ p ≠ self) then Some connectToSocket
              else acc !! p) as Hfold.
  { induction l as [|i l IH]; intros acc; cbn [foldl].
    - destruct (decide (p ∈ [] ∧ p ≠ self)) as [[H _]|_]; [|done].
      by apply elem_of_nil in H.
    - rewrite IH.
      destruct (decide (p ∈ l ∧ p ≠ self)) as [[Hin Hne]|Hn];
        destruct (decide (p ∈ i :: l ∧ p ≠ self)) as [[Hin' Hne']|Hn'].
      + done.
      + exfalso. apply Hn'. split; [by right | done].
      + assert (p = i) as ->.
        { apply elem_of_cons in Hin' as [|]; [done|]. by exfalso; apply Hn. }
        rewrite decide_False by done. by rewrite lookup_insert_eq.
      + destruct (decide (i = self)); [done|].
        rewrite lookup_insert_ne; [done|].
        intros ->. apply Hn'. split; [by left | done]. }
  rewrite Hfold, lookup_empty.
  destruct (decide (p ∈ seqZ 0 N ∧ p ≠ self)) as [[Hin Hne]|Hn];
    destruct (decide ((0 ≤ p < N)%Z ∧ p ≠ self)) as [[Hin' Hne']|Hn'];
    try done; rewrite elem_of_seqZ in *; exfalso; [apply Hn' | apply Hn]; lia.
Qed.

Lemma connect_peers_carries N self msb : carries N self msb (connect_peers N self).
Proof.
  intros p. rewrite connect_peers_lookup.
  destruct (decide (peer N self p)); [|done]. exists []. by split.
Qed.

Lemma dispatch_loop_S fuel N self m f own conns :
  dispatch_loop (S fuel) N self m f own conns
  = let '(kbuf, err, f1) := Read 10 f in
    let key := copy (zero_array 10) kbuf in
    match err with
    | Some EOF => Ok (own, conns)
    | None =>
        let '(vbuf, err, f2) := Read 90 f1 in
        let value := copy (zero_array 90) vbuf in
        match err with
        | Some EOF => Ok (own, conns)
        | None =>
            dst ← keyToServer key m;
            if decide (dst = self) then
              dispatch_loop fuel N self m f2 (own ++ [mkRecord key value]) conns
            else
              '(conn, conns') ← connection_for N dst conns;
              dispatch_loop fuel N self m f2 own
                (<[dst := write_data_frame conn (mkRecord key value)]> conns')
        end
    end.
Proof. reflexivity. Qed.

Lemma wf_read_record kbuf vbuf :
  wf_Record (mkRecord (copy (zero_array 10) kbuf) (copy (zero_array 90) vbuf)).
Proof.
  split; cbn [Key Value]; rewrite length_copy; apply length_replicate.
Qed.

(** The dial of lines 211-217 never happens: a destination that is not
    our own id has its connection since line 182. *)
Lemma connection_for_peer N self m conns dst conn conns' :
  carries N self m conns → dst ≠ self →
  connection_for N dst conns = Ok (conn, conns') →
  peer N self dst ∧ conns !! dst = Some conn ∧ conns' = conns.
Proof.
  intros Hc Hne H. specialize (Hc dst). unfold connection_for in H.
  destruct (decide (peer N self dst)) as [Hp|Hnp].
  - destruct Hc as (recs & _ & Hl). rewrite Hl in H |- *.
    by injection H as <- <-.
  - rewrite Hc in H. unfold Servers in H.
    destruct (decide (0 ≤ dst < N)%Z) as [Hr|Hr]; [|done].
    exfalso. apply Hnp. by split.
Qed.

Lemma carries_send N self m conns dst conn r :
  carries N self m conns → conns !! dst = Some conn → routed m dst r →
  carries N self m (<[dst := write_data_frame conn r]> conns).
Proof.
  intros Hc Hl Hr p. pose proof (Hc p) as Hp.
  destruct (decide (p = dst)) as [->|Hpd].
  - rewrite lookup_insert_eq.
    destruct (decide (peer N self dst)); [|congruence].
    destruct Hp as (recs & Hrecs & Hconn).
    exists (recs ++ [r]). split; [apply Forall_app_2; [done | by apply Forall_singleton]|].
    rewrite flat_map_app, write_data_frame_app. cbn [flat_map].
    rewrite app_nil_r. congruence.
  - by rewrite lookup_insert_ne.
Qed.

Lemma dispatch_loop_carries fuel N self m f own conns own' conns' :
  carries N self m conns →
  dispatch_loop fuel N self m f own conns = Ok (own', conns') →
  carries N self m conns'.
Proof.
  revert f own conns.
  induction fuel as [|fuel IH]; intros f own conns Hc H; [done|].
  rewrite dispatch_loop_S in H.
  destruct (Read 10 f) as [[kbuf [[]|]] f1]; [by injection H as _ <-|].
  destruct (Read 90 f1) as [[vbuf [[]|]] f2]; [by injection H as _ <-|].
  cbv zeta in H.
  destruct (keyToServer (copy (zero_array 10) kbuf) m) as [dst| | |] eqn:Hk;
    cbn [mbind outcome_bind] in H; try done.
  destruct (decide (dst = self)) as [->|Hne]; [by eapply IH|].
  destruct (connection_for N dst conns) as [[conn conns'']| | |] eqn:Hcf;
    cbn [mbind outcome_bind] in H; try done.
  destruct (connection_for_peer _ _ _ _ _ _ _ Hc Hne Hcf) as (Hp & Hl & ->).
  eapply IH; [|exact H]. apply carries_send; [done | done |].
  split; [apply wf_read_record | done].
Qed.

Lemma keyToServer_cons b tl m :
  keyToServer (b :: tl) m = shr (byte_val b) (8 - m).
Proof. reflexivity. Qed.

(** With at most 8 leading bits in use the loop runs to the end of the
    file. *)
Lemma dispatch_loop_total fuel N self m f own conns :
  (0 ≤ m ≤ 8)%Z → (2 ^ m ≤ N)%Z → carries N self m conns →
  length (pending f) < fuel →
  ∃ own' conns', dispatch_loop fuel N self m f own conns = Ok (own', conns').
Proof.
  intros Hm HN. revert f own conns.
  induction fuel as [|fuel IH]; intros f own conns Hc Hfuel; [lia|].
  rewrite dispatch_loop_S.
  destruct (decide (pending f = [])) as [Hp|Hp].
  { rewrite Read_eof by done. eauto. }
  destruct (Read_some 10 f) as (k & Hk & HR); [done | done |].
  rewrite HR. clear HR.
  set (f1 := mkStream (drop k (pending f)) (tail (chunks f))).
  destruct (decide (pending f1 = [])) as [Hp1|Hp1].
  { rewrite Read_eof by done. eauto. }
  destruct (Read_some 90 f1) as (k' & Hk' & HR); [done | done |].
  rewrite HR. clear HR. cbv zeta.
  set (f2 := mkStream (drop k' (pending f1)) (tail (chunks f1))).
  assert (length (pending f2) < fuel) as Hfuel2.
  { unfold f2, f1. cbn [pending]. rewrite !length_drop.
    destruct (pending f); [done | cbn [length] in *; lia]. }
  set (r := mkRecord _ _).
  assert (wf_Record r) as Hwf by apply wf_read_record.
  destruct (Key r) as [|b tl] eqn:Hkey.
  { destruct Hwf as [HK _]. by rewrite Hkey in HK. }
  change (copy (zero_array 10) (take k (pending f))) with (Key r).
  rewrite Hkey, keyToServer_cons. unfold shr.
  destruct (Z.ltb_spec (8 - m) 0) as [?|_]; [lia|].
  cbn [mbind outcome_bind].
  pose proof (shr_range b m Hm) as Hrange.
  destruct (decide (Z.shiftr (byte_val b) (8 - m) = self)) as [Hself|Hne].
  { by apply IH. }
  set (dst := Z.shiftr (byte_val b) (8 - m)) in *.
  assert (peer N self dst) as Hpeer by (split; [lia | done]).
  pose proof (Hc dst) as Hd. rewrite decide_True in Hd by done.
  destruct Hd as (recs & Hrecs & Hl).
  unfold connection_for. rewrite Hl. cbn [mbind outcome_bind].
  apply IH; [|done]. apply carries_send; [done | done |].
  split; [done|]. rewrite Hkey, keyToServer_cons. unfold shr.
  by rewrite (proj2 (Z.ltb_ge _ _)) by lia.
Qed.

(** The loop of [main] always comes to an end, whatever the cluster
    size: every pass takes at least one byte of the file. *)
Lemma dispatch_loop_returns fuel N self m f own conns :
  length (pending f) < fuel →
  dispatch_loop fuel N self m f own conns ≠ OutOfFuel.
Proof.
  revert f own conns.
  induction fuel as [|fuel IH]; intros f own conns Hfuel; [lia|].
  rewrite dispatch_loop_S.
  destruct (decide (pending f = [])) as [Hp|Hp].
  { by rewrite Read_eof. }
  destruct (Read_some 10 f) as (k & Hk & HR); [done | done |].
  rewrite HR. clear HR.
  set (f1 := mkStream (drop k (pending f)) (tail (chunks f))).
  destruct (decide (pending f1 = [])) as [Hp1|Hp1].
  { by rewrite Read_eof. }
  destruct (Read_some 90 f1) as (k' & Hk' & HR); [done | done |].
  rewrite HR. clear HR. cbv zeta.
  set (f2 := mkStream (drop k' (pending f1)) (tail (chunks f1))).
  assert (length (pending f2) < fuel) as Hfuel2.
  { unfold f2, f1. cbn [pending]. rewrite !length_drop.
    destruct (pending f); [done | cbn [length] in *; lia]. }
  destruct (keyToServer _ m) as [dst| | |] eqn:Hk2; cbn [mbind outcome_bind];
    try done.
  - destruct (decide (dst = self)); [by apply IH|].
    unfold connection_for, Servers.
    destruct (conns !! dst); cbn [mbind outcome_bind]; [by apply IH|].
    destruct (decide (0 ≤ dst < N)%Z); cbn [mbind outcome_bind];
      [by apply IH | done].
  - unfold keyToServer, firstByte, shr in Hk2.
    destruct (copy _ _); cbn [mbind outcome_bind] in Hk2; [done|].
    by destruct (_ <? 0)%Z.
Qed.

(** Every connection that is visited gets the terminator after what it
    already carries; the others are left alone. *)
Lemma send_terminators_lookup order conns p :
  NoDup order →
  send_terminators order conns !! p
  = if decide (p ∈ order) then write_terminator <$> conns !! p else conns !! p.
Proof.
  unfold send_terminators. intros Hnd. revert conns.
  induction Hnd as [|q order Hq _ IH]; intros conns; cbn [foldl].
  { destruct (decide (p ∈ [])) as [H|_]; [by apply elem_of_nil in H | done]. }
  rewrite IH.
  assert ((match conns !! q with
           | Some conn => <[q := write_terminator conn]> conns
           | None => conns
           end) !! p
          = if decide (p = q) then write_terminator <$> conns !! q
            else conns !! p) as ->.
  { destruct (decide (p = q)) as [->|Hpq]; destruct (conns !! q) eqn:Hl;
      rewrite ?lookup_insert_eq, ?lookup_insert_ne by done; done. }
  destruct (decide (p = q)) as [->|Hpq].
  - rewrite decide_False by done. rewrite decide_True by (by left). done.
  - destruct (decide (p ∈ order)) as [Hin|Hnin].
    + rewrite decide_True by (by right). done.
    + rewrite decide_False; [done|]. rewrite elem_of_cons. tauto.
Qed.

(** C7.  When the whole input has been read, every connection to a
    node other than our own, and no other, carries the data frames of
    the records routed to that node followed by one terminator frame,
    which is the last thing written on it; a node that was routed no
    record gets the terminator alone.  The reader at the other end of
    such a stream hands over those records and returns.  Below 512
    nodes the loop always gets there. *)
Theorem terminators_sent (N self : Z) (inputFile : Stream) (order : list Z) :
  (0 ≤ self < N)%Z → visits_peers N self order →
  (N < 512 → ∃ own conns, dispatch N self inputFile order = Ok (own, conns))%Z ∧
  ∀ own conns, dispatch N self inputFile order = Ok (own, conns) →
    ∀ p, if decide (peer N self p)
         then ∃ recs,
                Forall (routed (msb N) p) recs ∧
                conns !! p = Some (flat_map data_frame recs ++ terminator_frame) ∧
                ∀ sched, receiveData (mkStream (flat_map data_frame recs
                                                ++ terminator_frame) sched) = Ok recs
         else conns !! p = None.
Proof.
  intros Hself [Hnd Hord].
  pose proof (connect_peers_carries N self (msb N)) as Hc0.
  unfold dispatch, Servers. rewrite decide_True by done.
  cbn [mbind outcome_bind]. split.
  - intros HN.
    destruct (dispatch_loop_total (S (length (pending inputFile))) N self
                (msb N) inputFile [] (connect_peers N self))
      as (own & conns & E); [| |done|lia|].
    + unfold msb. split; [apply Z.log2_nonneg|].
      change 8%Z with (Z.log2 511). apply Z.log2_le_mono. lia.
    + unfold msb. apply Z.log2_spec. lia.
    + rewrite E. cbn [mbind outcome_bind]. eauto.
  - intros own conns H.
    destruct (dispatch_loop _ _ _ _ _ _ _) as [[own' conns']| | |] eqn:E;
      cbn [mbind outcome_bind] in H; try done.
    injection H as <- <-. intros p.
    pose proof (dispatch_loop_carries _ _ _ _ _ _ _ _ _ Hc0 E p) as Hp.
    rewrite send_terminators_lookup by done.
    destruct (decide (peer N self p)) as [Hpeer|Hnp].
    + destruct Hp as (recs & Hrecs & Hl). exists recs.
      rewrite decide_True by (by apply Hord).
      rewrite Hl. cbn [fmap option_fmap option_map].
      rewrite write_terminator_app. split_and!; [done | done |].
      intros sched. apply receiveData_frames.
      eapply Forall_impl; [exact Hrecs|]. by intros r [].
    + rewrite decide_False by (by rewrite Hord). done.
Qed.

End DispatchFacts.

Section IngestClaims.
Import Codec Partition Dispatch Samples.

(** C9 does not hold of the loop of lines 187-203: the byte counts of
    the two reads are dropped.  A shard of 50 bytes gives a record
    whose value is 40 bytes of the file and 50 zero bytes; the record
    is kept in the local buffer when its key is ours and sent as a data
    frame when it is not.  A shard of 100 bytes that comes in as 4
    bytes and then the rest gives a record made of 94 bytes of it. *)
Theorem short_record_dispatched :
  dispatch 2 0 (mkStream (replicate 50 x00) []) [1%Z]
  = Ok ([mkRecord (replicate 10 x00) (replicate 40 x00 ++ replicate 50 x00)],
        {[ 1%Z := terminator_frame ]})
  ∧ dispatch 2 0 (mkStream (replicate 50 xff) []) [1%Z]
    = Ok ([], {[ 1%Z := data_frame (mkRecord (replicate 10 xff)
                                   (replicate 40 xff ++ replicate 50 x00))
                        ++ terminator_frame ]})
  ∧ dispatch 1 0 (mkStream (replicate 100 x07) [4]) []
    = Ok ([mkRecord (replicate 4 x07 ++ replicate 6 x00) (replicate 90 x07)], ∅).
Proof. split_and!; vm_compute; reflexivity. Qed.

End IngestClaims.

(** ** The termination barrier *)

Section BarrierFacts.
Import Codec Barrier.

Lemma resume_step conn ch :
  resume conn ch
  = '(data, conn') ← read_frame conn;
    d ← decode_frame data;
    match d with
    | Some r => resume conn' (ch ++ [r])
    | None => Ok ch
    end.
Proof. apply receiveData_loop_step. Qed.

Lemma handed_insert_same (l : list inbound) i ib ib' :
  l !! i = Some ib → handed ib' = handed ib →
  handed <$> <[i := ib']> l = handed <$> l.
Proof.
  intros Hl Hh. rewrite list_fmap_insert, Hh.
  apply list_insert_id. by rewrite list_lookup_fmap, Hl.
Qed.

Lemma concat_handed_nil (l : list inbound) :
  Forall (fun x => handed x = []) l → concat (handed <$> l) = [].
Proof.
  induction 1 as [|x l Hx _ IH]; [done|].
  rewrite fmap_cons. cbn [concat]. by rewrite Hx, IH.
Qed.

Lemma concat_handed_insert (l : list inbound) i ib ib' r :
  l !! i = Some ib →
  (∀ j x, l !! j = Some x → i < j → handed x = []) →
  handed ib' = handed ib ++ [r] →
  concat (handed <$> <[i := ib']> l) = concat (handed <$> l) ++ [r].
Proof.
  intros Hl Hafter Hh.
  assert (concat (handed <$> drop (S i) l) = []) as Htail.
  { apply concat_handed_nil, Forall_lookup. intros j x Hj.
    rewrite lookup_drop in Hj. eapply Hafter; [done | lia]. }
  rewrite insert_take_drop by (by eapply lookup_lt_Some).
  pose proof (take_drop_middle l i ib Hl) as Hmid.
  set (a := take i l) in *. set (b := drop (S i) l) in *.
  rewrite <- Hmid.
  rewrite !fmap_app, !fmap_cons, !concat_app. cbn [concat].
  rewrite Hh, Htail, !app_nil_r. by rewrite (assoc_L (++)).
Qed.

Lemma inv_init N own : inv N own init.
Proof.
  unfold inv, init, collector_inv. cbn. split_and!; try done.
Qed.

Lemma collector_inv_read N s i ib ib' conn :
  nodeChannels s !! i = Some ib → rd ib = Reading conn →
  handed ib' = handed ib →
  collector_inv N s → collector_inv N (set_reader i ib' s).
Proof.
  intros Hl Hrd Hh. unfold collector_inv, set_reader. cbn.
  rewrite length_insert.
  destruct (coll s) as [|c|].
  - intros [Hwg Hall]. split; [done|]. intros j x Hj.
    apply list_lookup_insert_Some in Hj as [(-> & -> & _)|[_ Hj]].
    + rewrite Hh. by eapply Hall.
    + by eapply Hall.
  - intros (Hwg & Hlen & Hbefore & Hafter). split_and!; [done | done | |].
    + intros j x Hj Hlt.
      apply list_lookup_insert_Some in Hj as [(-> & -> & _)|[_ Hj]].
      * specialize (Hbefore _ _ Hl Hlt). congruence.
      * by eapply Hbefore.
    + intros j x Hj Hlt.
      apply list_lookup_insert_Some in Hj as [(-> & -> & _)|[_ Hj]].
      * rewrite Hh. by eapply Hafter.
      * by eapply Hafter.
  - intros (Hwg & Hlen & Hall). split_and!; [done | done |].
    intros j x Hj.
    apply list_lookup_insert_Some in Hj as [(-> & -> & _)|[_ Hj]].
    + specialize (Hall _ _ Hl). congruence.
    + by eapply Hall.
Qed.

Lemma inv_read N own s i ib ib' conn :
  nodeChannels s !! i = Some ib → rd ib = Reading conn →
  handed ib' = handed ib → reader_inv ib' →
  inv N own s → inv N own (set_reader i ib' s).
Proof.
  intros Hl Hrd Hh Hib' (Hr & Hc & Hrec & Hpc).
  split_and!.
  - by apply Forall_insert.
  - by eapply collector_inv_read.
  - cbn. by rewrite (handed_insert_same _ _ ib).
  - exact Hpc.
Qed.

Lemma inv_step N own s s' : inv N own s → step N own s s' → inv N own s'.
Proof.
  intros Hinv Hstep.
  destruct Hstep as
    [s conn Hcoll Hlen
    |s Hcoll Hlen
    |s i ib conn data conn' r Hl Hrd Hread Hdec
    |s i ib conn data conn' Hl Hrd Hread Hdec
    |s i ib r conn Hcoll Hl Hrd
    |s i ib Hcoll Hl Hrd
    |s i Hcoll Hlen
    |s Hpc0 Hwg].
  - (* accept *)
    destruct Hinv as (Hr & Hc & Hrec & Hpc).
    unfold collector_inv in Hc. rewrite Hcoll in Hc. destruct Hc as [Hwg Hall].
    unfold inv, collector_inv. cbn. split_and!.
    + apply Forall_app_2; [done|]. by apply Forall_singleton.
    + done.
    + intros j x Hj. apply lookup_app_Some in Hj as [Hj|[_ Hj]].
      * by eapply Hall.
      * apply list_lookup_singleton_Some in Hj as [_ <-]. done.
    + rewrite fmap_app, concat_app. cbn. by rewrite app_nil_r.
    + intros recs Hm. destruct (Hpc recs Hm). congruence.
  - (* the collector is spawned *)
    destruct Hinv as (Hr & Hc & Hrec & Hpc).
    unfold collector_inv in Hc. rewrite Hcoll in Hc. destruct Hc as [Hwg Hall].
    unfold inv, collector_inv. cbn. split_and!; try done.
    + intros j x Hj ?. lia.
    + intros j x Hj _. by eapply Hall.
    + intros recs Hm. destruct (Hpc recs Hm). congruence.
  - (* a data frame is read *)
    eapply inv_read; [done | done | done | | done].
    destruct Hinv as (Hr & _). rewrite Forall_lookup in Hr.
    specialize (Hr _ _ Hl). unfold reader_inv in Hr |- *. rewrite Hrd in Hr.
    cbn [rd origin handed]. rewrite Hr, resume_step, Hread. cbn [mbind outcome_bind].
    by rewrite Hdec.
  - (* the terminator is read *)
    eapply inv_read; [done | done | done | | done].
    destruct Hinv as (Hr & _). rewrite Forall_lookup in Hr.
    specialize (Hr _ _ Hl). unfold reader_inv in Hr |- *. rewrite Hrd in Hr.
    cbn [rd origin handed]. rewrite Hr, resume_step, Hread. cbn [mbind outcome_bind].
    by rewrite Hdec.
  - (* a record goes from the reader to the collector *)
    destruct Hinv as (Hr & Hc & Hrec & Hpc).
    unfold collector_inv in Hc. rewrite Hcoll in Hc.
    destruct Hc as (Hwg & Hlen & Hbefore & Hafter).
    unfold inv, collector_inv. cbn. rewrite length_insert. split_and!; try done.
    + apply Forall_insert; [done|].
      rewrite Forall_lookup in Hr. specialize (Hr _ _ Hl).
      unfold reader_inv in Hr |- *. by rewrite Hrd in Hr.
    + intros j x Hj Hlt.
      apply list_lookup_insert_Some in Hj as [(-> & _ & _)|[_ Hj]]; [lia|].
      by eapply Hbefore.
    + intros j x Hj Hlt.
      apply list_lookup_insert_Some in Hj as [(-> & _ & _)|[_ Hj]]; [lia|].
      by eapply Hafter.
    + rewrite (concat_handed_insert _ _ ib _ r); [by rewrite Hrec | done | done | done].
    + intros recs Hm. destruct (Hpc recs Hm). congruence.
  - (* a channel is found closed *)
    destruct Hinv as (Hr & Hc & Hrec & Hpc).
    unfold collector_inv in Hc. rewrite Hcoll in Hc.
    destruct Hc as (Hwg & Hlen & Hbefore & Hafter).
    unfold inv, collector_inv. cbn. split_and!; try done.
    + intros j x Hj Hlt. destruct (decide (j = i)) as [->|Hne].
      * congruence.
      * eapply Hbefore; [done | lia].
    + intros j x Hj Hlt. eapply Hafter; [done | lia].
    + intros recs Hm. destruct (Hpc recs Hm). congruence.
  - (* the collector is done *)
    destruct Hinv as (Hr & Hc & Hrec & Hpc).
    unfold collector_inv in Hc. rewrite Hcoll in Hc.
    destruct Hc as (Hwg & Hlen' & Hbefore & Hafter).
    unfold inv, collector_inv. cbn. split_and!; try done.
    + by rewrite Hwg.
    + intros j x Hj. eapply Hbefore; [done|].
      apply lookup_lt_Some in Hj. lia.
    + intros recs Hm. destruct (Hpc recs Hm). congruence.
  - (* main goes past the barrier *)
    destruct Hinv as (Hr & Hc & Hrec & Hpc).
    unfold inv. cbn. split_and!; try done.
    intros recs [= <-]. split; [|done].
    unfold collector_inv in Hc. destruct (coll s); [lia | lia | done].
Qed.

Lemma reachable_inv N own s : reachable N own s → inv N own s.
Proof.
  induction 1 as [|s s' _ IH Hstep]; [apply inv_init | by eapply inv_step].
Qed.

(** C2.  [main] is past [waitGroup.Wait()] only if the barrier has
    fired.  When it has fired, the node has its N-1 inbound
    connections; on every one of them the reader has returned, which
    it does on the terminator frame, and the collector holds all the
    records of the data frames before it; the received buffer is those
    records, connection after connection; and the slice [main] sorts
    is the local buffer followed by them. *)
Theorem barrier_after_all_terminators (N : Z) (own : list Rec) (s : node) :
  reachable N own s →
  (∀ records, pc s = Merging records → fired s) ∧
  (fired s →
     Z.of_nat (length (nodeChannels s)) = (N - 1)%Z ∧
     Forall drained (nodeChannels s) ∧
     receivedRecords s = concat (handed <$> nodeChannels s)) ∧
  (∀ records, pc s = Merging records →
              records = own ++ concat (handed <$> nodeChannels s)).
Proof.
  intros Hreach. apply reachable_inv in Hreach as (Hr & Hc & Hrec & Hpc).
  unfold fired, collector_inv in *. split_and!.
  - intros recs Hm. destruct (Hpc recs Hm) as [Hf _].
    rewrite Hf in Hc. by destruct Hc.
  - intros Hwg. destruct (coll s); [lia | lia |].
    destruct Hc as (_ & Hlen & Hall). split_and!; [done | | done].
    apply Forall_lookup. intros j ib Hj. split; [by eapply Hall|].
    rewrite Forall_lookup in Hr. specialize (Hr _ _ Hj).
    unfold reader_inv in Hr. by rewrite (Hall _ _ Hj) in Hr.
  - intros recs Hm. destruct (Hpc recs Hm) as [_ ->]. by rewrite Hrec.
Qed.

End BarrierFacts.

(** ** Instances *)

Section Instances.
Import Codec Partition Dispatch Merge Barrier Samples.

Lemma frame_round_trip_witness :
  wf_Record rec_ff ∧
  (data_frame rec_ff = x00 :: Key rec_ff ++ Value rec_ff ∧
   length (data_frame rec_ff) = 101 ∧
   (∃ sched', read_frame (mkStream (data_frame rec_ff ++ [x07]) [1; 1; 3])
              = Ok (data_frame rec_ff, mkStream [x07] sched')) ∧
   decode_frame (data_frame rec_ff) = Ok (Some rec_ff) ∧
   receiveData (mkStream (data_frame rec_ff ++ terminator_frame) [1; 1; 3])
   = Ok [rec_ff]).
Proof.
  assert (wf_Record rec_ff) as Hwf by (split; reflexivity).
  split; [exact Hwf|].
  exact (frame_round_trip rec_ff [x07] [1; 1; 3] Hwf).
Defined.

Lemma partial_reads_witness :
  length (data_frame rec_00) = 101 ∧
  ((∃ sched', read_frame (mkStream (data_frame rec_00 ++ terminator_frame)
                            (replicate 101 1))
              = Ok (data_frame rec_00, mkStream terminator_frame sched')) ∧
   read_frame (mkStream (data_frame rec_00 ++ terminator_frame) [])
   = Ok (data_frame rec_00, mkStream terminator_frame []) ∧
   receiveData (mkStream (data_frame rec_ff ++ terminator_frame) (replicate 101 1))
   = receiveData (mkStream (data_frame rec_ff ++ terminator_frame) [])).
Proof.
  assert (length (data_frame rec_00) = 101) as Hlen by reflexivity.
  split; [exact Hlen|].
  exact (partial_reads (data_frame rec_00) terminator_frame
           (data_frame rec_ff ++ terminator_frame) (replicate 101 1) Hlen).
Defined.

Lemma terminator_only_witness :
  length (replicate 100 xff) = 100 ∧
  receiveData (mkStream (x01 :: replicate 100 xff) [3; 1]) = Ok [].
Proof.
  assert (length (replicate 100 xff) = 100) as Hlen by reflexivity.
  split; [exact Hlen|].
  exact (terminator_only (replicate 100 xff) [3; 1] Hlen).
Defined.

Lemma control_byte_dispatch_witness :
  length (x02 :: replicate 100 x41) = 101 ∧
  let data := x02 :: replicate 100 x41 in
  let r := {| Key := take 10 (drop 1 data); Value := take 90 (drop 11 data) |} in
  (head data ≠ Some x01 →
     decode_frame data = Ok (Some r) ∧ wf_Record r ∧
     ∃ sched', receiveData_loop 2 (mkStream (data ++ terminator_frame) [5]) []
               = receiveData_loop 1 (mkStream terminator_frame sched') ([] ++ [r])) ∧
  (head data = Some x01 →
     decode_frame data = Ok None ∧
     receiveData_loop 2 (mkStream (data ++ terminator_frame) [5]) [] = Ok []) ∧
  (decode_frame data = Ok None → head data = Some x01).
Proof.
  assert (length (x02 :: replicate 100 x41) = 101) as Hlen by reflexivity.
  split; [exact Hlen|].
  exact (control_byte_dispatch (x02 :: replicate 100 x41) terminator_frame
           [5] [] 1 Hlen).
Defined.

Lemma destination_power_of_two_witness :
  (1 ≤ 4 ≤ 256)%Z ∧ power_of_two 4 = true ∧
  destination [xc5; x00] 4 = Ok (Z.shiftr (byte_val xc5) (8 - Z.log2 4)) ∧
  (0 ≤ Z.shiftr (byte_val xc5) (8 - Z.log2 4) < 4)%Z ∧
  ∀ b' tl', same_top_bits (Z.log2 4) xc5 b' →
            destination (b' :: tl') 4 = destination [xc5; x00] 4.
Proof.
  assert (1 ≤ 4 ≤ 256)%Z as Hrange by lia.
  assert (power_of_two 4 = true) as Hpow by reflexivity.
  split; [exact Hrange|]. split; [exact Hpow|].
  exact (destination_power_of_two 4 xc5 [x00] Hrange Hpow).
Defined.

Lemma destination_coverage_gap_witness :
  (1 ≤ 3)%Z ∧ power_of_two 3 = false ∧
  (2 ^ Z.log2 3 < 3)%Z ∧
  (∀ d, destination [xff] 3 = Ok d → 0 ≤ d < 2 ^ Z.log2 3)%Z ∧
  ((3 < 512)%Z → [xff] ≠ [] → ∃ d, destination [xff] 3 = Ok d).
Proof.
  assert (1 ≤ 3)%Z as Hrange by lia.
  assert (power_of_two 3 = false) as Hpow by reflexivity.
  split; [exact Hrange|]. split; [exact Hpow|].
  exact (destination_coverage_gap 3 [xff] Hrange Hpow).
Defined.

Lemma visits_peers_sample : visits_peers 2 0 [1%Z].
Proof.
  split.
  - apply NoDup_singleton.
  - intros p. unfold peer. rewrite list_elem_of_singleton. lia.
Defined.

Lemma terminators_sent_witness :
  (0 ≤ 0 < 2)%Z ∧ visits_peers 2 0 [1%Z] ∧
  let inputFile := mkStream (record_bytes rec_ff ++ record_bytes rec_00) [] in
  ((2 < 512)%Z → ∃ own conns, dispatch 2 0 inputFile [1%Z] = Ok (own, conns)) ∧
  ∀ own conns, dispatch 2 0 inputFile [1%Z] = Ok (own, conns) →
    ∀ p, if decide (peer 2 0 p)
         then ∃ recs,
                Forall (routed (msb 2) p) recs ∧
                conns !! p = Some (flat_map data_frame recs ++ terminator_frame) ∧
                ∀ sched, receiveData (mkStream (flat_map data_frame recs
                                                ++ terminator_frame) sched) = Ok recs
         else conns !! p = None.
Proof.
  assert (0 ≤ 0 < 2)%Z as Hself by lia.
  split; [exact Hself|]. split; [exact visits_peers_sample|].
  exact (terminators_sent 2 0 (mkStream (record_bytes rec_ff ++ record_bytes rec_00) [])
           [1%Z] Hself visits_peers_sample).
Defined.

Lemma merge_emit_sorted_witness :
  sorts insertionSort ∧
  let records := merge insertionSort [rec_40; rec_00] [rec_ff; rec_10] in
  let output := emit insertionSort [rec_40; rec_00] [rec_ff; rec_10] in
  records ≡ₚ [rec_40; rec_00] ++ [rec_ff; rec_10] ∧
  StronglySorted key_le records ∧
  output = flat_map (fun r => Key r ++ Value r) records ∧
  (Forall wf_Record ([rec_40; rec_00] ++ [rec_ff; rec_10]) →
   length output = 100 * length ([rec_40; rec_00] ++ [rec_ff; rec_10]) ∧
   ∀ i r, records !! i = Some r →
          take 100 (drop (100 * i) output) = Key r ++ Value r).
Proof.
  split; [exact insertionSort_sorts|].
  exact (merge_emit_sorted insertionSort [rec_40; rec_00] [rec_ff; rec_10]
           insertionSort_sorts).
Defined.

(** A run of a node of a cluster of two, from [init] to [merged]. *)
Lemma sample_run : reachable 2 [rec_40] merged.
Proof.
  pose (ps1 := mkStream terminator_frame []).
  pose (ib0 := mkInbound peer_stream [] (Reading peer_stream)).
  pose (ib1 := mkInbound peer_stream [] (Sending rec_10 ps1)).
  pose (ib2 := mkInbound peer_stream [rec_10] (Reading ps1)).
  pose (ib3 := mkInbound peer_stream [rec_10] Returned).
  pose (s1 := mkNode [ib0] NotStarted [] 1 BeforeWait).
  pose (s2 := mkNode [ib1] NotStarted [] 1 BeforeWait).
  pose (s3 := mkNode [ib1] (Draining 0) [] 1 BeforeWait).
  pose (s4 := mkNode [ib2] (Draining 0) [rec_10] 1 BeforeWait).
  pose (s5 := mkNode [ib3] (Draining 0) [rec_10] 1 BeforeWait).
  pose (s6 := mkNode [ib3] (Draining 1) [rec_10] 1 BeforeWait).
  pose (s7 := mkNode [ib3] Finished [rec_10] 0 BeforeWait).
  apply (reachable_step _ _ s7);
    [|apply (step_wait 2 [rec_40] s7); reflexivity].
  apply (reachable_step _ _ s6);
    [|apply (step_done 2 [rec_40] s6 1); [reflexivity | apply le_n]].
  apply (reachable_step _ _ s5);
    [|apply (step_closed 2 [rec_40] s5 0 ib3); reflexivity].
  apply (reachable_step _ _ s4);
    [|apply (step_read_terminator 2 [rec_40] s4 0 ib2 ps1 terminator_frame
               (mkStream [] [])); vm_compute; reflexivity].
  apply (reachable_step _ _ s3);
    [|apply (step_handoff 2 [rec_40] s3 0 ib1 rec_10 ps1); reflexivity].
  apply (reachable_step _ _ s2);
    [|apply (step_spawn 2 [rec_40] s2); reflexivity].
  apply (reachable_step _ _ s1);
    [|apply (step_read_data 2 [rec_40] s1 0 ib0 peer_stream (data_frame rec_10)
               ps1 rec_10); vm_compute; reflexivity].
  apply (reachable_step _ _ init);
    [apply reachable_init|].
  apply (step_accept 2 [rec_40] init peer_stream); [reflexivity | discriminate].
Defined.

Lemma barrier_after_all_terminators_witness :
  reachable 2 [rec_40] merged ∧
  (∀ records, pc merged = Merging records → fired merged) ∧
  (fired merged →
     Z.of_nat (length (nodeChannels merged)) = (2 - 1)%Z ∧
     Forall drained (nodeChannels merged) ∧
     receivedRecords merged = concat (handed <$> nodeChannels merged)) ∧
  (∀ records, pc merged = Merging records →
              records = [rec_40] ++ concat (handed <$> nodeChannels merged)).
Proof.
  split; [exact sample_run|].
  exact (barrier_after_all_terminators 2 [rec_40] merged sample_run).
Defined.

(** Node 0 of a cluster of two, on the shard [0x80.., 0x40..], with
    [0x10..] coming from node 1: the first record leaves for node 1,
    and the output is [0x10..] then [0x40..]. *)
Example node0_dispatch :
  dispatch 2 0 (mkStream (record_bytes rec_80 ++ record_bytes rec_40) []) [1%Z]
  = Ok ([rec_40], {[ 1%Z := data_frame rec_80 ++ terminator_frame ]}).
Proof. vm_compute. reflexivity. Qed.

Example node0_output :
  emit insertionSort [rec_40] [rec_10] = record_bytes rec_10 ++ record_bytes rec_40.
Proof. vm_compute. reflexivity. Qed.

End Instances.

(** * Further properties *)

(** ** The reader on whole streams *)

Section ReaderProperties.
Import Codec.

Lemma wf_frame_record data : 101 ≤ length data → wf_Record (frame_record data).
Proof.
  intros Hlen. rewrite frame_record_positions by done.
  split; cbn [Key Value]; rewrite length_take, length_drop; lia.
Qed.



Lemma receiveData_loop_cut recs partial sched ch fuel :
  Forall wf_Record recs → length partial < 101 → length recs < fuel →
  receiveData_loop fuel (mkStream (flat_map data_frame recs ++ partial) sched) ch
  = Fatal.
Proof.
  intros Hwf Hlen. revert sched ch fuel.
  induction Hwf as [|r recs Hr _ IH]; intros sched ch [|fuel] Hfuel;
    cbn [length] in Hfuel; try lia.
  - cbn [flat_map app]. rewrite receiveData_loop_S.
    by rewrite read_frame_truncated.
  - cbn [flat_map]. rewrite receiveData_loop_S, <- (assoc_L (++)).
    destruct (read_frame_full (data_frame r)
                (flat_map data_frame recs ++ partial) sched)
      as (s' & E); [by apply length_data_frame|].
    rewrite E. cbn [mbind outcome_bind].
    rewrite decode_frame_data_frame by done. cbn [mbind outcome_bind].
    apply IH. lia.
Qed.

(** X2.  A connection that ends before a terminator frame, between two
    frames or inside one, ends the process: the read at the end of
    the stream fails and [checkErrorAndExit] is fatal.  The reader
    does not return, so its channel is not closed. *)
Theorem reader_fatal_without_terminator (recs : list Rec) (partial : list byte)
    (sched : list nat) :
  Forall wf_Record recs → length partial < 101 →
  receiveData (mkStream (flat_map data_frame recs ++ partial) sched) = Fatal.
Proof.
  intros Hwf Hlen. unfold receiveData. cbn [pending].
  apply receiveData_loop_cut; [done | done |].
  rewrite length_app, length_flat_map_data_frame by done. lia.
Qed.

Lemma receiveData_loop_inv fuel p sched ch out :
  receiveData_loop fuel (mkStream p sched) ch = Ok out →
  ∃ frames payload rest,
    p = concat frames ++ x01 :: payload ++ rest ∧
    length payload = 100 ∧
    Forall (fun f => length f = 101 ∧ head f ≠ Some x01) frames ∧
    out = ch ++ (frame_record <$> frames).
Proof.
  revert p sched ch.
  induction fuel as [|fuel IH]; intros p sched ch H; [done|].
  rewrite receiveData_loop_S in H.
  destruct (read_frame_spec (mkStream p sched)) as [(Hle & s' & E)|(_ & E)];
    rewrite E in H; [|done].
  cbn [pending mbind outcome_bind] in *.
  assert (length (take 101 p) = 101) as Hlen by (rewrite length_take; lia).
  destruct (take 101 p) as [|ctl body] eqn:Hframe; [done|].
  rewrite decode_frame_control in H.
  destruct (Byte.eqb ctl x01) eqn:Hctl; cbn [mbind outcome_bind] in H.
  - apply Byte.byte_dec_bl in Hctl as ->. injection H as <-.
    exists [], body, (drop 101 p). split_and!.
    + cbn [concat app]. change (x01 :: body ++ drop 101 p)
        with ((x01 :: body) ++ drop 101 p).
      by rewrite <- Hframe, take_drop.
    + cbn [length] in Hlen. lia.
    + constructor.
    + by rewrite app_nil_r.
  - apply IH in H as (frames & payload & rest & Hp & Hpay & Hfr & ->).
    exists ((ctl :: body) :: frames), payload, rest. split_and!.
    + cbn [concat]. rewrite <- (assoc_L (++)), <- Hp, <- Hframe.
      by rewrite take_drop.
    + done.
    + constructor; [|done]. split; [done|]. cbn [head].
      intros [= ->]. by vm_compute in Hctl.
    + rewrite fmap_cons. by rewrite <- (assoc_L (++)).
Qed.

(** X3.  When the reader returns, the stream it was given is a
    sequence of 101-byte frames with control bytes other than 1,
    then a frame with control byte 1; the records it has sent are
    those of the frames, in order, each with a 10-byte key and a
    90-byte value, and it has read 101 bytes for each of them and for
    the terminator. *)
Theorem reader_returns_only_on_terminator (p : list byte) (sched : list nat)
    (recs : list Rec) :
  receiveData (mkStream p sched) = Ok recs →
  Forall wf_Record recs ∧
  101 * (length recs + 1) ≤ length p ∧
  ∃ frames payload rest,
    p = concat frames ++ x01 :: payload ++ rest ∧
    length payload = 100 ∧
    Forall (fun f => length f = 101 ∧ head f ≠ Some x01) frames ∧
    recs = frame_record <$> frames.
Proof.
  intros H. apply receiveData_loop_inv in H
    as (frames & payload & rest & -> & Hpay & Hfr & ->).
  cbn [app]. split_and!.
  - apply Forall_fmap. eapply Forall_impl; [exact Hfr|].
    intros f [Hf _]. apply wf_frame_record. cbn. lia.
  - rewrite length_fmap, !length_app. cbn [length].
    rewrite length_app, Hpay.
    assert (length (concat frames) = 101 * length frames) as ->; [|lia].
    clear -Hfr. induction Hfr as [|f frames [Hf _] _ IH]; [done|].
    cbn [concat length]. rewrite length_app, IH, Hf. lia.
  - by exists frames, payload, rest.
Qed.

End ReaderProperties.

(** ** The dispatch loop on whole shards *)

Section DispatchProperties.
Import Codec Partition Dispatch Merge.

Lemma Read_full want p :
  want ≠ 0 → p ≠ [] →
  Read want (mkStream p []) = (take want p, None, mkStream (drop want p) []).
Proof.
  intros Hw Hp. unfold Read. cbn [pending chunks tail].
  destruct want as [|w]; [done|]. destruct p as [|b p]; [done|].
  by rewrite Nat.min_id.
Qed.

Lemma copy_full dst src : length src = length dst → copy dst src = src.
Proof.
  intros H. unfold copy.
  rewrite <- H, firstn_all, drop_ge by lia. apply app_nil_r.
Qed.

Lemma keyToServer_range key m d :
  (0 ≤ m ≤ 8)%Z → keyToServer key m = Ok d → (0 ≤ d < 2 ^ m)%Z.
Proof.
  intros Hm H. destruct key as [|b tl]; [done|].
  rewrite keyToServer_cons in H. unfold shr in H.
  destruct (Z.ltb_spec (8 - m) 0) as [?|_]; [done|].
  injection H as <-. by apply shr_range.
Qed.

Lemma keyToServer_defined key m :
  (0 ≤ m ≤ 8)%Z → key ≠ [] → ∃ d, keyToServer key m = Ok d.
Proof.
  intros Hm Hkey. destruct key as [|b tl]; [done|].
  rewrite keyToServer_cons. unfold shr.
  destruct (Z.ltb_spec (8 - m) 0) as [?|_]; [lia|]. eauto.
Qed.

(** The loop on a shard of whole records served in full reads, with at
    most 10 bytes after the last record. *)
Lemma dispatch_loop_whole N self m recs trailing fuel own conns :
  (0 ≤ m ≤ 8)%Z → (2 ^ m ≤ N)%Z →
  Forall wf_Record recs → length trailing ≤ 10 →
  carries N self m conns → length recs < fuel →
  ∃ conns',
    dispatch_loop fuel N self m
      (mkStream (flat_map record_bytes recs ++ trailing) []) own conns
    = Ok (own ++ filter (fun r => keyToServer (Key r) m = Ok self) recs, conns') ∧
    ∀ p, conns' !! p
         = (fun w => w ++ flat_map data_frame
                           (filter (fun r => keyToServer (Key r) m = Ok p) recs))
           <$> conns !! p.
Proof.
  intros Hm HN Hwf Htr. revert fuel own conns.
  induction Hwf as [|r recs Hr Hwf IH]; intros [|fuel] own conns Hc Hfuel;
    cbn [length] in Hfuel; try lia.
  - exists conns. cbn [flat_map app filter list_filter]. split.
    + rewrite dispatch_loop_S, app_nil_r.
      destruct (decide (trailing = [])) as [->|Hne].
      { by rewrite Read_eof. }
      rewrite Read_full by done.
      rewrite (drop_ge trailing 10) by lia.
      by rewrite Read_eof.
    + intros p. destruct (conns !! p); cbn; [by rewrite app_nil_r | done].
  - destruct Hr as [HK HV]. destruct r as [K V]. cbn [Key Value] in *.
    cbn [flat_map]. unfold record_bytes at 1. cbn [Key Value].
    rewrite <- !(assoc_L (++)).
    set (tl := flat_map record_bytes recs ++ trailing).
    rewrite dispatch_loop_S.
    rewrite Read_full by (done || by destruct K).
    rewrite take_app_length', drop_app_length' by done.
    rewrite Read_full by (done || by destruct V).
    rewrite take_app_length', drop_app_length' by done.
    cbv zeta. subst tl.
    rewrite !copy_full by (by rewrite ?HK, ?HV).
    destruct (keyToServer_defined K m Hm) as (d & Hd); [by destruct K|].
    pose proof (keyToServer_range K m d Hm Hd) as Hrange.
    rewrite Hd. cbn [mbind outcome_bind].
    destruct (decide (d = self)) as [->|Hne].
    + destruct (IH fuel (own ++ [mkRecord K V]) conns Hc ltac:(lia))
        as (conns' & E & Hl).
      exists conns'. split.
      * rewrite E, filter_cons_True by done. by rewrite <- (assoc_L (++)).
      * intros p. rewrite Hl.
        destruct (decide (p = self)) as [->|Hp].
        -- pose proof (Hc self) as Hs.
           rewrite decide_False in Hs by (by intros [_ ?]). by rewrite Hs.
        -- rewrite (filter_cons_False _ (mkRecord K V)); [done|].
           cbn [Key]. rewrite Hd. congruence.
    + assert (peer N self d) as Hpeer by (split; [lia | done]).
      pose proof (Hc d) as Hcd. rewrite decide_True in Hcd by done.
      destruct Hcd as (sent & Hsent & Hld).
      unfold connection_for. rewrite Hld. cbn [mbind outcome_bind].
      assert (routed m d (mkRecord K V)) as Hrouted by (by split).
      destruct (IH fuel own
                  (<[d := write_data_frame (flat_map data_frame sent) (mkRecord K V)]> conns)
                  (carries_send _ _ _ _ _ _ _ Hc Hld Hrouted) ltac:(lia))
        as (conns' & E & Hl).
      exists conns'. split.
      * rewrite E, filter_cons_False; [done|]. cbn [Key]. rewrite Hd. congruence.
      * intros p. rewrite Hl.
        destruct (decide (p = d)) as [->|Hp].
        -- rewrite lookup_insert_eq, Hld, filter_cons_True by done. cbn.
           by rewrite write_data_frame_app, <- (assoc_L (++)).
        -- rewrite lookup_insert_ne by done.
           rewrite (filter_cons_False _ (mkRecord K V)); [done|].
           cbn [Key]. rewrite Hd. congruence.
Qed.

Lemma msb_small N : (1 ≤ N < 512)%Z → (0 ≤ msb N ≤ 8)%Z ∧ (2 ^ msb N ≤ N)%Z.
Proof.
  intros HN. unfold msb. split_and!.
  - apply Z.log2_nonneg.
  - change 8%Z with (Z.log2 511). apply Z.log2_le_mono. lia.
  - apply Z.log2_spec. lia.
Qed.

(** [main] on a shard of whole records served in full reads, with at
    most 10 bytes after the last record. *)
Lemma dispatch_whole N self recs trailing order :
  (0 ≤ self < N)%Z → (N < 512)%Z → visits_peers N self order →
  Forall wf_Record recs → length trailing ≤ 10 →
  ∃ conns,
    dispatch N self (mkStream (flat_map record_bytes recs ++ trailing) []) order
    = Ok (filter (fun r => destination (Key r) N = Ok self) recs, conns) ∧
    ∀ p, conns !! p
         = if decide (peer N self p)
           then Some (flat_map data_frame
                        (filter (fun r => destination (Key r) N = Ok p) recs)
                      ++ terminator_frame)
           else None.
Proof.
  intros Hself HN [Hnd Hord] Hwf Htr.
  destruct (msb_small N) as [Hm H2]; [lia|].
  unfold dispatch, Servers, destination. rewrite decide_True by done.
  cbn [mbind outcome_bind pending].
  destruct (dispatch_loop_whole N self (msb N) recs trailing
              (S (length (flat_map record_bytes recs ++ trailing))) []
              (connect_peers N self) Hm H2 Hwf Htr
              (connect_peers_carries N self (msb N)))
    as (conns' & E & Hl).
  { rewrite length_app, length_flat_map_record_bytes by done. lia. }
  rewrite E. cbn [mbind outcome_bind app].
  eexists. split; [reflexivity|].
  intros p. rewrite send_terminators_lookup, Hl, connect_peers_lookup by done.
  destruct (decide (peer N self p)) as [Hp|Hp].
  - rewrite decide_True by (by apply Hord).
    cbn [fmap option_fmap option_map app].
    by rewrite write_terminator_app.
  - rewrite decide_False by (by rewrite Hord). done.
Qed.

(** X4.  On a shard of whole records (read in full reads, below 512
    nodes) the loop keeps in the local buffer exactly the records
    whose destination is this node, in the order of the file, and
    writes to every other node the data frames of exactly the records
    whose destination is that node, in the order of the file, then
    the terminator. *)
Theorem dispatch_partitions_shard (N self : Z) (recs : list Rec) (order : list Z) :
  (0 ≤ self < N)%Z → (N < 512)%Z → visits_peers N self order →
  Forall wf_Record recs →
  ∃ conns,
    dispatch N self (mkStream (flat_map record_bytes recs) []) order
    = Ok (filter (fun r => destination (Key r) N = Ok self) recs, conns) ∧
    ∀ p, peer N self p →
         conns !! p
         = Some (flat_map data_frame
                   (filter (fun r => destination (Key r) N = Ok p) recs)
                 ++ terminator_frame).
Proof.
  intros Hself HN Hord Hwf.
  destruct (dispatch_whole N self recs [] order) as (conns & E & Hl);
    [done | done | done | done | cbn [length]; lia |].
  rewrite app_nil_r in E. exists conns. split; [done|].
  intros p Hp. by rewrite Hl, decide_True.
Qed.

(** X5.  What a node writes to a peer is what the peer's reader hands
    to its collector: for a shard of whole records, the reader on the
    bytes written to node [p] returns, having sent exactly the records
    of the shard whose destination is [p], in the order of the file,
    however the bytes are cut into reads. *)
Theorem routed_records_arrive (N self p : Z) (recs own : list Rec)
    (order : list Z) (conns : gmap Z (list byte)) (bytes : list byte)
    (sched : list nat) :
  (0 ≤ self < N)%Z → (N < 512)%Z → visits_peers N self order →
  Forall wf_Record recs →
  dispatch N self (mkStream (flat_map record_bytes recs) []) order = Ok (own, conns) →
  conns !! p = Some bytes →
  receiveData (mkStream bytes sched)
  = Ok (filter (fun r => destination (Key r) N = Ok p) recs).
Proof.
  intros Hself HN Hord Hwf Hdisp Hp.
  destruct (dispatch_whole N self recs [] order) as (conns' & E & Hl);
    [done | done | done | done | cbn [length]; lia |].
  rewrite app_nil_r, Hdisp in E. injection E as -> <-.
  rewrite Hl in Hp. destruct (decide (peer N self p)); [|done].
  injection Hp as <-. apply receiveData_frames.
  rewrite Forall_forall in Hwf |- *.
  intros r [_ Hr]%list_elem_of_filter. by apply Hwf.
Qed.

(** X6.  Up to 10 bytes after the last whole record are read as a key
    and dropped when the read of the value meets the end of the file:
    no error, no record, and the run is the one of the shard without
    them. *)
Theorem trailing_key_dropped (N self : Z) (recs : list Rec)
    (trailing : list byte) (order : list Z) :
  (0 ≤ self < N)%Z → (N < 512)%Z → visits_peers N self order →
  Forall wf_Record recs → length trailing ≤ 10 →
  dispatch N self (mkStream (flat_map record_bytes recs ++ trailing) []) order
  = dispatch N self (mkStream (flat_map record_bytes recs) []) order.
Proof.
  intros Hself HN Hord Hwf Htr.
  destruct (dispatch_whole N self recs trailing order) as (conns1 & E1 & Hl1);
    [done..|].
  destruct (dispatch_whole N self recs [] order) as (conns2 & E2 & Hl2);
    [done | done | done | done | cbn [length]; lia |].
  rewrite app_nil_r in E2. rewrite E1, E2. do 2 f_equal.
  apply map_eq. intros p. by rewrite Hl1, Hl2.
Qed.


Lemma dispatch_loop_own fuel N self m f own conns own' conns' :
  Forall (routed m self) own →
  dispatch_loop fuel N self m f own conns = Ok (own', conns') →
  Forall (routed m self) own'.
Proof.
  revert f own conns.
  induction fuel as [|fuel IH]; intros f own conns Hown H; [done|].
  rewrite dispatch_loop_S in H.
  destruct (Read 10 f) as [[kbuf [[]|]] f1]; [by injection H as <- _|].
  destruct (Read 90 f1) as [[vbuf [[]|]] f2]; [by injection H as <- _|].
  cbv zeta in H.
  destruct (keyToServer (copy (zero_array 10) kbuf) m) as [dst| | |] eqn:Hk;
    cbn [mbind outcome_bind] in H; try done.
  destruct (decide (dst = self)) as [->|Hne].
  - eapply IH; [|exact H]. apply Forall_app_2; [done|].
    apply Forall_singleton. split; [apply wf_read_record | done].
  - destruct (connection_for N dst conns) as [[conn conns'']| | |];
      cbn [mbind outcome_bind] in H; try done.
    by eapply IH.
Qed.

(** X8.  On any shard and any sequence of reads, whole records or not,
    every record of the local buffer has a 10-byte key and a 90-byte
    value, and its destination is this node. *)
Theorem own_records_routed (N self : Z) (inputFile : Stream) (order : list Z)
    (own : list Rec) (conns : gmap Z (list byte)) :
  dispatch N self inputFile order = Ok (own, conns) →
  Forall (fun r => wf_Record r ∧ destination (Key r) N = Ok self) own.
Proof.
  intros H. unfold dispatch, Servers in H.
  destruct (decide (0 ≤ self < N)%Z) as [Hself|]; [|done].
  cbn [mbind outcome_bind] in H.
  destruct (dispatch_loop _ _ _ _ _ _ _) as [[own' conns']| | |] eqn:E;
    cbn [mbind outcome_bind] in H; try done.
  injection H as <- _.
  by apply (dispatch_loop_own _ _ _ _ _ _ _ _ _ (Forall_nil_2 _) E).
Qed.

End DispatchProperties.

(** ** The partition and the order of the keys *)

Section PartitionProperties.
Import Codec Partition Dispatch Merge.
#[local] Open Scope Z_scope.

Lemma lex_le_first b1 t1 b2 t2 :
  lex_le (b1 :: t1) (b2 :: t2) → byte_val b1 ≤ byte_val b2.
Proof. unfold byte_val. inversion 1; subst; lia. Qed.

Lemma destination_le N k1 k2 d1 d2 :
  destination k1 N = Ok d1 → destination k2 N = Ok d2 →
  lex_le k1 k2 → d1 ≤ d2.
Proof.
  intros H1 H2 Hle.
  destruct k1 as [|b1 t1]; [done|]. destruct k2 as [|b2 t2]; [done|].
  rewrite destination_cons in H1, H2. unfold shr in H1, H2.
  destruct (Z.ltb_spec (8 - Z.log2 N) 0) as [?|Hc]; [done|].
  injection H1 as <-. injection H2 as <-.
  rewrite !Z.shiftr_div_pow2 by done.
  apply Z.div_le_mono; [by apply Z.pow_pos_nonneg|].
  by apply lex_le_first with t1 t2.
Qed.

Lemma destination_lt N k1 k2 d1 d2 :
  destination k1 N = Ok d1 → destination k2 N = Ok d2 →
  d1 < d2 → lex_le k1 k2 ∧ ¬ lex_le k2 k1.
Proof.
  intros H1 H2 Hlt.
  assert (¬ lex_le k2 k1) as Hn.
  { intros Hle. pose proof (destination_le N k2 k1 d2 d1 H2 H1 Hle). lia. }
  split; [|done]. by destruct (lex_le_total k1 k2).
Qed.

(** X9.  The destination grows with the key: of two keys in the
    byte-wise order, the smaller one never goes to a node with a
    larger id.  Hence a record sent to a node with a smaller id has a
    strictly smaller key. *)
Theorem destination_monotone (N : Z) (k1 k2 : list byte) (d1 d2 : Z) :
  destination k1 N = Ok d1 → destination k2 N = Ok d2 →
  (lex_le k1 k2 → d1 ≤ d2) ∧ (d1 < d2 → lex_le k1 k2 ∧ ¬ lex_le k2 k1).
Proof.
  intros H1 H2. split.
  - exact (destination_le N k1 k2 d1 d2 H1 H2).
  - exact (destination_lt N k1 k2 d1 d2 H1 H2).
Qed.

Lemma concat_sorted_from N (k : nat) (outs : list (list Rec)) :
  (∀ i l, outs !! i = Some l →
          StronglySorted key_le l ∧
          Forall (fun r => destination (Key r) N = Ok (Z.of_nat (k + i))) l) →
  StronglySorted key_le (concat outs).
Proof.
  revert k. induction outs as [|l outs IH]; intros k H; [constructor|].
  cbn [concat]. apply StronglySorted_app_2.
  - intros x1 x2 Hx1 Hx2.
    apply list_elem_of_In, in_concat in Hx2 as (l' & Hl' & Hx2).
    apply list_elem_of_In, list_elem_of_lookup in Hl' as (j & Hj).
    apply list_elem_of_In in Hx2.
    destruct (H 0%nat l eq_refl) as [_ Hd1].
    destruct (H (S j) l' Hj) as [_ Hd2].
    rewrite Forall_forall in Hd1, Hd2.
    apply (destination_lt N _ _ _ _ (Hd1 _ Hx1) (Hd2 _ Hx2)). lia.
  - by destruct (H 0%nat l eq_refl).
  - apply (IH (S k)). intros i l' Hi.
    destruct (H (S i) l' Hi) as [Hs Hd]. split; [done|].
    by replace (S k + i)%nat with (k + S i)%nat by lia.
Qed.

(** X10.  The outputs of the nodes, put one after the other in the
    order of the node ids, are sorted: when the records of the i-th
    list are sorted and have destination [i], the concatenation is
    sorted by key. *)
Theorem outputs_globally_sorted (N : Z) (outs : list (list Rec)) :
  (∀ i l, outs !! i = Some l →
          StronglySorted key_le l ∧
          Forall (fun r => destination (Key r) N = Ok (Z.of_nat i)) l) →
  StronglySorted key_le (concat outs).
Proof. apply (concat_sorted_from N 0). Qed.

(** X11.  With a power of two of at most 256 nodes every node is the
    destination of some key: the byte [d << (8 - log2 N)] in front
    sends a key to node [d]. *)
Theorem every_node_is_a_destination (N d : Z) :
  1 ≤ N ≤ 256 → power_of_two N = true → 0 ≤ d < N →
  ∃ b, byte_val b = Z.shiftl d (8 - Z.log2 N) ∧
       ∀ tl, destination (b :: tl) N = Ok d.
Proof.
  intros HN Hpow Hd. apply Z.eqb_eq in Hpow.
  assert (0 ≤ Z.log2 N ≤ 8) as Hbits.
  { split; [apply Z.log2_nonneg|].
    change 8 with (Z.log2 256). apply Z.log2_le_mono. lia. }
  set (c := 8 - Z.log2 N) in *.
  assert (0 < 2 ^ c) as Hpc by (apply Z.pow_pos_nonneg; lia).
  assert (2 ^ Z.log2 N * 2 ^ c = 256) as H256.
  { rewrite <- Z.pow_add_r by lia. by replace (Z.log2 N + c) with 8 by lia. }
  assert (0 ≤ d * 2 ^ c < 256) as Hv by nia.
  destruct (Byte.of_N (Z.to_N (d * 2 ^ c))) as [b|] eqn:Hb.
  - apply Byte.to_of_N in Hb.
    assert (byte_val b = d * 2 ^ c) as Hbv by (unfold byte_val; lia).
    exists b. split.
    + by rewrite Z.shiftl_mul_pow2 by lia.
    + intros tl. rewrite destination_cons. unfold shr. fold c.
      rewrite (proj2 (Z.ltb_ge _ _)) by lia.
      by rewrite Hbv, Z.shiftr_div_pow2, Z.div_mul by lia.
  - apply Byte.of_N_None_iff in Hb. lia.
Qed.

Lemma concat_filters_other {A} (P : Z → A → Prop) `{∀ p x, Decision (P p x)}
    (x : A) (l : list A) (js : list Z) :
  (∀ j, j ∈ js → ¬ P j x) →
  concat ((fun p => filter (P p) (x :: l)) <$> js)
  = concat ((fun p => filter (P p) l) <$> js).
Proof.
  induction js as [|j js IH]; intros Hn; [done|].
  rewrite !fmap_cons. cbn [concat].
  rewrite filter_cons_False by (apply Hn; by left).
  rewrite IH; [done|]. intros j' Hj'. apply Hn. by right.
Qed.

Lemma concat_filters_owner {A} (P : Z → A → Prop) `{∀ p x, Decision (P p x)}
    (x : A) (l : list A) (js : list Z) (d : Z) :
  NoDup js → d ∈ js → (∀ j, P j x ↔ j = d) →
  concat ((fun p => filter (P p) (x :: l)) <$> js)
  ≡ₚ x :: concat ((fun p => filter (P p) l) <$> js).
Proof.
  intros Hnd Hd Hown. induction Hnd as [|j js Hj Hnd IH]; [by apply elem_of_nil in Hd|].
  rewrite !fmap_cons. cbn [concat].
  destruct (decide (j = d)) as [->|Hne].
  - rewrite filter_cons_True by (by apply Hown).
    rewrite concat_filters_other; [done|].
    intros j' Hj' HP. apply Hown in HP as ->. done.
  - rewrite filter_cons_False by (by rewrite Hown).
    rewrite IH; [symmetry; apply Permutation_middle|].
    apply elem_of_cons in Hd as [->|Hd]; done.
Qed.

(** X12.  Below 512 nodes every record has one owner among the nodes:
    the lists of the records whose destination is node 0, node 1, ...
    node N-1 are together a rearrangement of the records, none lost
    and none twice. *)
Theorem every_record_has_one_owner (N : Z) (recs : list Rec) :
  1 ≤ N < 512 → Forall wf_Record recs →
  concat ((fun p => filter (fun r => destination (Key r) N = Ok p) recs)
            <$> seqZ 0 N)
  ≡ₚ recs.
Proof.
  intros HN Hwf. destruct (msb_small N HN) as [Hm H2].
  induction Hwf as [|r recs Hr _ IH].
  - generalize (seqZ 0 N). intros js. by induction js.
  - destruct (keyToServer_defined (Key r) (msb N) Hm) as (d & Hd).
    { destruct Hr as [HK _]. by destruct (Key r). }
    pose proof (keyToServer_range _ _ _ Hm Hd) as Hrange.
    rewrite (concat_filters_owner
               (fun p r => destination (Key r) N = Ok p) r recs (seqZ 0 N) d).
    + by rewrite IH.
    + apply NoDup_seqZ.
    + apply elem_of_seqZ. lia.
    + intros j. unfold destination. rewrite Hd. split; congruence.
Qed.

End PartitionProperties.

(** ** The library's sort on any element type *)

Section GoSortFacts.
Import GoSort.
Context {A : Type}.

Lemma sift_of_perm (lt : A → A → bool) x p : sift_of lt x p ≡ₚ x :: p.
Proof.
  induction p as [|y p IH]; cbn [sift_of]; [done|].
  destruct (lt x y); [|done]. rewrite IH. apply perm_swap.
Qed.

Lemma sift_of_sorted (lt : A → A → bool) x p :
  (∀ a b c, lt a b = true → lt b c = true → lt a c = true) →
  (∀ a b, lt a b = true ∨ lt b a = true) →
  StronglySorted (fun a b => lt b a = true) p →
  StronglySorted (fun a b => lt b a = true) (sift_of lt x p).
Proof.
  intros Htrans Htotal. induction 1 as [|y p Hp IH Hy]; cbn [sift_of].
  { repeat constructor. }
  destruct (lt x y) eqn:Hxy.
  - constructor; [done|]. rewrite sift_of_perm. by constructor.
  - assert (lt y x = true) as Hyx by (destruct (Htotal x y); congruence).
    constructor; [by constructor|].
    constructor; [done|].
    eapply Forall_impl; [exact Hy|]. intros z Hz. exact (Htrans _ _ _ Hz Hyx).
Qed.

Lemma insertionSort_of_sorts : sorts_of (@insertionSort_of A).
Proof.
  split.
  - intros lt l. unfold insertionSort_of. rewrite reverse_Permutation.
    assert (∀ l acc, foldl (fun p x => sift_of lt x p) acc l ≡ₚ l ++ acc) as H.
    { clear l. induction l as [|x l IH]; intros acc; cbn [foldl]; [done|].
      rewrite IH, sift_of_perm. symmetry. apply Permutation_middle. }
    by rewrite H, app_nil_r.
  - intros lt l Htrans Htotal. unfold insertionSort_of.
    apply StronglySorted_reverse. unfold flip.
    generalize (@nil A) (SSorted_nil (fun a b => lt b a = true)).
    induction l as [|x l IH]; intros acc Hacc; cbn [foldl]; [done|].
    apply IH. by apply sift_of_sorted.
Qed.

End GoSortFacts.

(** ** The topology *)

Section TopologyProperties.
Import GoSort Topology.
#[local] Open Scope Z_scope.

Lemma seqZ_sorted m (k : nat) : StronglySorted Z.le (seqZ m (Z.of_nat k)).
Proof.
  revert m. induction k as [|k IH]; intros m.
  { rewrite seqZ_nil by lia. constructor. }
  rewrite seqZ_cons by lia.
  replace (Z.pred (Z.of_nat (S k))) with (Z.of_nat k) by lia.
  constructor; [apply IH|].
  apply Forall_forall. intros x Hx. apply elem_of_seqZ in Hx. lia.
Qed.

Lemma by_ServerID_le a b : by_ServerID a b = true ↔ ServerID a ≤ ServerID b.
Proof. apply Z.leb_le. Qed.

(** Sorted by id, a topology with the ids 0 to N-1 has id [i] at
    index [i]. *)
Lemma sorted_ids sort_Slice (servers : list Server) N :
  sorts_of sort_Slice → ServerID <$> servers ≡ₚ seqZ 0 N →
  ServerID <$> sort_Slice by_ServerID servers = seqZ 0 N.
Proof.
  intros [Hperm Hsort] Hids.
  apply (StronglySorted_unique Z.le).
  - apply (StronglySorted_fmap _ (fun a b => by_ServerID a b = true)).
    + intros x y. apply by_ServerID_le.
    + apply Hsort.
      * intros a b c. rewrite !by_ServerID_le. lia.
      * intros a b. rewrite !by_ServerID_le. lia.
  - destruct (Z_le_gt_dec N 0) as [?|?].
    + rewrite seqZ_nil by done. constructor.
    + rewrite <- (Z2Nat.id N) by lia. apply seqZ_sorted.
  - by rewrite Hperm.
Qed.

Lemma sorted_index sort_Slice (servers : list Server) N i :
  sorts_of sort_Slice → ServerID <$> servers ≡ₚ seqZ 0 N → 0 ≤ i < N →
  ∃ sv, sv ∈ servers ∧ ServerID sv = i ∧
        index (sort_Slice by_ServerID servers) i = Ok sv.
Proof.
  intros Hs Hids Hi. pose proof (sorted_ids sort_Slice servers N Hs Hids) as Hl.
  assert ((ServerID <$> sort_Slice by_ServerID servers) !! Z.to_nat i = Some i)
    as Hlook.
  { rewrite Hl. apply lookup_seqZ. lia. }
  rewrite list_lookup_fmap in Hlook.
  destruct (sort_Slice by_ServerID servers !! Z.to_nat i) as [sv|] eqn:Hsv;
    [|done].
  injection Hlook as Hid. exists sv. split_and!; [|done|].
  - destruct Hs as [Hperm _]. rewrite <- (Hperm by_ServerID servers).
    by eapply list_elem_of_lookup_2.
  - unfold index. rewrite decide_True by lia. by rewrite Hsv.
Qed.

(** X13.  When the ids of the topology file are 0 to N-1 in any order,
    lines 150-157 find N as the number of nodes and listen on the
    address of the entry whose id is [serverID], and line 178 dials
    for peer [i] the address of the entry whose id is [i]; an id
    outside 0 to N-1 on the command line is a panic at line 155. *)
Theorem topology_index_is_id
    (sort_Slice : (Server → Server → bool) → list Server → list Server)
    (servers : list Server) (N serverID : Z) :
  sorts_of sort_Slice → ServerID <$> servers ≡ₚ seqZ 0 N →
  (0 ≤ serverID < N →
     ∃ sv, sv ∈ servers ∧ ServerID sv = serverID ∧
           own_address sort_Slice servers serverID
           = Ok (sort_Slice by_ServerID servers, N,
                 getAddress (Host sv) (Port sv)) ∧
           peer_address sort_Slice servers serverID
           = Ok (getAddress (Host sv) (Port sv))) ∧
  (¬ 0 ≤ serverID < N → own_address sort_Slice servers serverID = Panic).
Proof.
  intros Hs Hids.
  assert (Z.of_nat (length (sort_Slice by_ServerID servers)) = Z.max 0 N) as Hlen.
  { rewrite <- (length_fmap ServerID), (sorted_ids _ _ N Hs Hids), length_seqZ.
    lia. }
  split.
  - intros Hi. destruct (sorted_index sort_Slice servers N serverID Hs Hids Hi)
      as (sv & Hin & Hid & Hidx).
    exists sv. unfold own_address, peer_address. rewrite Hidx, Hlen.
    cbn [mbind outcome_bind]. split_and!; try done.
    by replace (0 `max` N) with N by lia.
  - intros Hi. unfold own_address, index.
    destruct (decide (0 ≤ serverID)) as [H0|]; [|done].
    rewrite (proj2 (lookup_ge_None _ _)); [done|]. lia.
Qed.

End TopologyProperties.

(** ** Dialling *)

Section TransportProperties.
Import Transport.
Context {Conn : Type}.

(** X14.  [connectToSocket] returns the connection of the first dial
    that succeeds, with a nil error: the dials refused before it are
    logged and waited out, 250 ms each, never fatal; as long as the
    dials are refused it does not return. *)
Theorem connectToSocket_first_success (k : nat) (conn : Conn)
    (later : list (option Conn)) (clock : Z) (logged : nat) :
  connectToSocket (replicate k None ++ Some conn :: later) clock logged
  = Ok (conn, None, (clock + 250 * Z.of_nat k)%Z, logged + k)
  ∧ connectToSocket (replicate k (@None Conn)) clock logged = OutOfFuel.
Proof.
  revert clock logged. induction k as [|k IH]; intros clock logged.
  - cbn [replicate app connectToSocket]. split; [|done].
    replace (clock + 250 * Z.of_nat 0)%Z with clock by lia.
    by rewrite Nat.add_0_r.
  - cbn [replicate app connectToSocket].
    destruct (IH (clock + waitTime)%Z (S logged)) as [-> ->].
    split; [|done]. unfold waitTime.
    replace (clock + 250 + 250 * Z.of_nat k)%Z
      with (clock + 250 * Z.of_nat (S k))%Z by lia.
    by replace (S logged + k) with (logged + S k) by lia.
Qed.

End TransportProperties.

(** ** The output file *)

Section MergeProperties.
Import Codec Merge.

Lemma lex_le_antisym a b : lex_le a b → lex_le b a → a = b.
Proof.
  induction 1 as [b|x y a b Hxy|x a b Hab IH]; inversion 1; subst;
    try done; try lia.
  f_equal. by apply IH.
Qed.

Lemma NoDup_fmap_eq {A B} (f : A → B) (l : list A) x y :
  NoDup (f <$> l) → x ∈ l → y ∈ l → f x = f y → x = y.
Proof.
  induction l as [|z l IH]; intros Hnd Hx Hy Hf; [by apply elem_of_nil in Hx|].
  rewrite fmap_cons in Hnd. apply NoDup_cons in Hnd as [Hz Hnd].
  apply elem_of_cons in Hx as [->|Hx]; apply elem_of_cons in Hy as [->|Hy].
  - done.
  - exfalso. apply Hz. rewrite Hf. by apply list_elem_of_fmap_2.
  - exfalso. apply Hz. rewrite <- Hf. by apply list_elem_of_fmap_2.
  - by apply IH.
Qed.

(** X15.  When no two records have the same key, the output file is
    determined by the records alone: whatever routine sorts them,
    whatever the order in which the peers' records came in and
    however they are split between the local and the received buffer,
    the bytes written are the same. *)
Theorem output_determined_by_records
    (sort1 sort2 : (Rec → Rec → bool) → list Rec → list Rec)
    (own received own' received' : list Rec) :
  sorts sort1 → sorts sort2 →
  own ++ received ≡ₚ own' ++ received' →
  NoDup (Key <$> (own ++ received)) →
  emit sort1 own received = emit sort2 own' received'.
Proof.
  intros [Hp1 Hs1] [Hp2 Hs2] Hperm Hnd.
  unfold emit. f_equal. unfold merge. cbn [app].
  apply (StronglySorted_unique_strong key_le).
  - intros x1 x2 Hx1 Hx2 H12 H21.
    rewrite Hp1 in Hx1. rewrite Hp2, <- Hperm in Hx2.
    apply (NoDup_fmap_eq Key (own ++ received)); [done..|].
    by apply lex_le_antisym.
  - eapply StronglySorted_weaken; [|apply Hs1].
    + intros x y. apply less_key_le.
    + apply less_trans.
    + apply less_total.
  - eapply StronglySorted_weaken; [|apply Hs2].
    + intros x y. apply less_key_le.
    + apply less_trans.
    + apply less_total.
  - by rewrite Hp1, Hp2.
Qed.

End MergeProperties.

(** ** Runs of the node *)

Section BarrierProperties.
Import Codec Barrier.



(** X17.  A node never has more than N-1 inbound connections, the
    collector starts only when it has exactly N-1, and
    [waitGroup.Done()] is called at most once: the counter is 1 until
    the collector has finished and 0 from then on. *)
Theorem accepts_at_most_all_peers (N : Z) (own : list Rec) (s : node) :
  (1 ≤ N)%Z → reachable N own s →
  (Z.of_nat (length (nodeChannels s)) ≤ N - 1)%Z ∧
  (coll s ≠ NotStarted → Z.of_nat (length (nodeChannels s)) = (N - 1)%Z) ∧
  (coll s = Finished → waitGroup s = 0) ∧
  (coll s ≠ Finished → waitGroup s = 1).
Proof.
  intros HN Hreach.
  assert (Z.of_nat (length (nodeChannels s)) ≤ N - 1)%Z as Hle.
  { induction Hreach as [|s s' Hreach IH Hstep]; [cbn; lia|].
    destruct Hstep; cbn [nodeChannels set_reader];
      rewrite ?length_insert, ?length_app; cbn [length]; lia. }
  apply reachable_inv in Hreach as (_ & Hc & _ & _).
  unfold collector_inv in Hc. split; [done|].
  destruct (coll s).
  - destruct Hc as [? _]. by split_and!.
  - destruct Hc as (? & ? & _). by split_and!.
  - destruct Hc as (? & ? & _). by split_and!.
Qed.

End BarrierProperties.

(** ** The barrier does fire *)

Section BarrierProgress.
Import Codec Barrier Liveness.
Variables (N : Z) (own : list Rec).
Hypothesis HN : (1 ≤ N)%Z.










End BarrierProgress.

(** ** A node among its peers *)

Section ClusterProperties.
Import Codec Partition Dispatch Merge Barrier.

Lemma concat_Permutation_proper {A} (ls1 ls2 : list (list A)) :
  ls1 ≡ₚ ls2 → concat ls1 ≡ₚ concat ls2.
Proof.
  induction 1 as [|l ls1 ls2 _ IH|l1 l2 ls|ls1 ls2 ls3 _ IH1 _ IH2];
    cbn [concat].
  - done.
  - by rewrite IH.
  - rewrite !(assoc_L (++)). by rewrite (comm (++) l2 l1).
  - by etrans.
Qed.

Lemma filter_concat {A} (P : A → Prop) `{∀ x, Decision (P x)} (ls : list (list A)) :
  filter P (concat ls) = concat (filter P <$> ls).
Proof.
  induction ls as [|l ls IH]; [done|].
  rewrite fmap_cons. cbn [concat]. by rewrite filter_app, IH.
Qed.

(** X19.  A node of a cluster below 512 nodes in which every node
    runs the program on a shard of whole records: once [main] is past
    the barrier, the records it is about to sort are the records of
    all the shards whose destination is this node, each once,
    whatever the order in which the peers connected and the way
    their bytes came in. *)
Theorem node_merges_its_range (N j : Z) (shard : Z → list Rec)
    (order accept_order : list Z) (own : list Rec)
    (conns : gmap Z (list byte)) (s : node) (records : list Rec) :
  (0 ≤ j < N)%Z → (N < 512)%Z →
  (∀ i, Forall wf_Record (shard i)) →
  visits_peers N j order → visits_peers N j accept_order →
  dispatch N j (mkStream (flat_map record_bytes (shard j)) []) order
  = Ok (own, conns) →
  reachable N own s → pc s = Merging records →
  Forall2 (fun ib i =>
             ∃ order_i own_i conns_i bytes sched,
               visits_peers N i order_i ∧
               dispatch N i (mkStream (flat_map record_bytes (shard i)) []) order_i
               = Ok (own_i, conns_i) ∧
               conns_i !! j = Some bytes ∧
               origin ib = mkStream bytes sched)
          (nodeChannels s) accept_order →
  records
  ≡ₚ filter (fun r => destination (Key r) N = Ok j) (concat (shard <$> seqZ 0 N)).
Proof.
  intros Hj HN Hwf Hord [Hnd Hacc] Hdisp Hreach Hpc Hlinks.
  set (F := fun i => filter (fun r => destination (Key r) N = Ok j) (shard i)).
  (* the local buffer *)
  destruct (dispatch_whole N j (shard j) [] order) as (conns' & E & _);
    [done | done | done | done | cbn [length]; lia |].
  rewrite app_nil_r, Hdisp in E. injection E as -> _.
  (* the received buffer *)
  apply reachable_inv in Hreach as (Hr & Hc & Hrec & Hm).
  destruct (Hm _ Hpc) as [Hfin ->]. rewrite Hrec.
  unfold collector_inv in Hc. rewrite Hfin in Hc. destruct Hc as (_ & _ & Hret).
  assert (handed <$> nodeChannels s = F <$> accept_order) as ->.
  { assert (∀ i, i ∈ accept_order → peer N j i) as Hpeers
      by (intros i; apply Hacc).
    clear Hacc Hnd Hrec Hm.
    induction Hlinks as [|ib i chans is_ Hlink _ IH]; [done|].
    rewrite !fmap_cons.
    apply Forall_cons in Hr as [Hib Hr].
    pose proof (Hret 0 ib eq_refl) as Hrd.
    destruct Hlink as (order_i & own_i & conns_i & bytes & sched
                       & Hord_i & Hdisp_i & Hbytes & Horigin).
    destruct (Hpeers i) as [Hi _]; [by left|].
    f_equal.
    - unfold reader_inv in Hib. rewrite Hrd, Horigin in Hib.
      destruct (dispatch_whole N i (shard i) [] order_i) as (conns_i' & E & Hl);
        [done | done | done | done | cbn [length]; lia |].
      rewrite app_nil_r, Hdisp_i in E. injection E as _ <-.
      rewrite Hl in Hbytes.
      destruct (decide (peer N i j)) as [_|]; [|done]. injection Hbytes as <-.
      rewrite receiveData_frames in Hib; [by injection Hib|].
      pose proof (Hwf i) as Hwfi. rewrite Forall_forall in Hwfi |- *.
      intros r [_ Hr']%list_elem_of_filter. by apply Hwfi.
    - apply IH; [done| |].
      + intros k ib' Hk. by apply (Hret (S k)).
      + intros i' Hi'. apply Hpeers. by right. }
  (* together: every node once *)
  rewrite filter_concat, <- list_fmap_compose.
  change (concat (F <$> j :: accept_order) ≡ₚ concat (F <$> seqZ 0 N)).
  apply concat_Permutation_proper, fmap_Permutation.
  apply NoDup_Permutation.
  - apply NoDup_cons. split; [|done]. rewrite Hacc. by intros [_ ?].
  - apply NoDup_seqZ.
  - intros i. rewrite elem_of_cons, Hacc, elem_of_seqZ. unfold peer.
    destruct (decide (i = j)) as [->|]; [split; [lia | by left]|].
    split; [intros [?|[? ?]]; [done | lia] | intros ?; right; split; [lia | done]].
Qed.

Lemma filter_all {A} (P : A → Prop) `{∀ x, Decision (P x)} (l : list A) :
  Forall P l → filter P l = l.
Proof.
  induction 1 as [|x l Hx _ IH]; [done|].
  by rewrite filter_cons_True, IH.
Qed.

Lemma destination_single r : wf_Record r → destination (Key r) 1 = Ok 0%Z.
Proof.
  intros [HK _]. destruct (Key r) as [|b tl]; [done|].
  rewrite destination_cons. change (8 - Z.log2 1)%Z with 8%Z.
  unfold shr. change (8 <? 0)%Z with false. cbv iota.
  pose proof (byte_val_range b).
  by rewrite Z.shiftr_div_pow2, Z.div_small by lia.
Qed.

(** X20.  The output file has the layout of a shard: read by the
    loop of lines 187-203 on a cluster of one node, it gives back the
    sorted records, in order, and nothing is sent anywhere. *)
Theorem output_reads_back
    (sort_Slice : (Rec → Rec → bool) → list Rec → list Rec)
    (own received : list Rec) :
  sorts sort_Slice → Forall wf_Record (own ++ received) →
  dispatch 1 0 (mkStream (emit sort_Slice own received) []) []
  = Ok (merge sort_Slice own received, ∅).
Proof.
  intros [Hperm _] Hwf.
  assert (Forall wf_Record (merge sort_Slice own received)) as Hwf'.
  { unfold merge. cbn [app]. by rewrite Hperm. }
  unfold emit. rewrite write_records_flat_map. cbn [app].
  assert (visits_peers 1 0 []) as Hord.
  { split; [apply NoDup_nil_2|]. intros p. unfold peer.
    rewrite elem_of_nil. lia. }
  destruct (dispatch_whole 1 0 (merge sort_Slice own received) [] [])
    as (conns & E & Hl); [lia | lia | done | done | cbn [length]; lia |].
  rewrite app_nil_r in E. rewrite E. f_equal. f_equal.
  - apply filter_all. eapply Forall_impl; [exact Hwf'|].
    intros r Hr. by apply destination_single.
  - apply map_eq. intros p. rewrite Hl, lookup_empty.
    destruct (decide (peer 1 0 p)) as [[? ?]|]; [lia | done].
Qed.

End ClusterProperties.

(** ** Instances of the further properties *)

Section MoreInstances.
Import Codec Partition Dispatch Merge Barrier Liveness GoSort Topology.
Import Samples ClusterSamples.

Lemma wf_samples : Forall wf_Record [rec_00; rec_10; rec_40; rec_80; rec_ff].
Proof. repeat (apply Forall_cons_2; [split; reflexivity|]). apply Forall_nil_2. Defined.

Lemma wf_two : Forall wf_Record [rec_10; rec_ff].
Proof. repeat (apply Forall_cons_2; [split; reflexivity|]). apply Forall_nil_2. Defined.

Lemma visits_peers_sample1 : visits_peers 2 1 [0%Z].
Proof.
  split.
  - apply NoDup_singleton.
  - intros p. unfold peer. rewrite list_elem_of_singleton. lia.
Defined.


Lemma reader_fatal_without_terminator_witness :
  Forall wf_Record [rec_10; rec_ff] ∧ length (replicate 40 x00) < 101 ∧
  receiveData (mkStream (flat_map data_frame [rec_10; rec_ff]
                         ++ replicate 40 x00) [2; 50])
  = Fatal.
Proof.
  assert (length (replicate 40 x00) < 101) as Hlen by (cbn; lia).
  split; [exact wf_two|]. split; [exact Hlen|].
  exact (reader_fatal_without_terminator [rec_10; rec_ff] (replicate 40 x00)
           [2; 50] wf_two Hlen).
Defined.

Lemma reader_returns_only_on_terminator_witness :
  receiveData (mkStream (data_frame rec_10 ++ terminator_frame) [1; 7; 200])
  = Ok [rec_10] ∧
  (Forall wf_Record [rec_10] ∧
   101 * (length [rec_10] + 1) ≤ length (data_frame rec_10 ++ terminator_frame) ∧
   ∃ frames payload rest,
     data_frame rec_10 ++ terminator_frame
     = concat frames ++ x01 :: payload ++ rest ∧
     length payload = 100 ∧
     Forall (fun f => length f = 101 ∧ head f ≠ Some x01) frames ∧
     [rec_10] = frame_record <$> frames).
Proof.
  assert (receiveData (mkStream (data_frame rec_10 ++ terminator_frame) [1; 7; 200])
          = Ok [rec_10]) as H by (vm_compute; reflexivity).
  split; [exact H|].
  exact (reader_returns_only_on_terminator _ _ _ H).
Defined.

Lemma wf_shard0 : Forall wf_Record [rec_80; rec_40].
Proof. repeat (apply Forall_cons_2; [split; reflexivity|]). apply Forall_nil_2. Defined.

Lemma wf_shard1 : Forall wf_Record [rec_10].
Proof. repeat (apply Forall_cons_2; [split; reflexivity|]). apply Forall_nil_2. Defined.

Lemma dispatch_partitions_shard_witness :
  (0 ≤ 0 < 2)%Z ∧ (2 < 512)%Z ∧ visits_peers 2 0 [1%Z] ∧
  Forall wf_Record [rec_80; rec_40] ∧
  ∃ conns,
    dispatch 2 0 (mkStream (flat_map record_bytes [rec_80; rec_40]) []) [1%Z]
    = Ok (filter (fun r => destination (Key r) 2 = Ok 0%Z) [rec_80; rec_40], conns) ∧
    ∀ p, peer 2 0 p →
         conns !! p
         = Some (flat_map data_frame
                   (filter (fun r => destination (Key r) 2 = Ok p) [rec_80; rec_40])
                 ++ terminator_frame).
Proof.
  assert (0 ≤ 0 < 2)%Z as Hself by lia.
  assert (2 < 512)%Z as HN by lia.
  split; [exact Hself|]. split; [exact HN|].
  split; [exact visits_peers_sample|]. split; [exact wf_shard0|].
  exact (dispatch_partitions_shard 2 0 [rec_80; rec_40] [1%Z] Hself HN
           visits_peers_sample wf_shard0).
Defined.

Lemma routed_records_arrive_witness :
  (0 ≤ 1 < 2)%Z ∧ (2 < 512)%Z ∧ visits_peers 2 1 [0%Z] ∧
  Forall wf_Record [rec_10] ∧
  dispatch 2 1 (mkStream (flat_map record_bytes [rec_10]) []) [0%Z]
  = Ok ([], {[ 0%Z := data_frame rec_10 ++ terminator_frame ]}) ∧
  ({[ 0%Z := data_frame rec_10 ++ terminator_frame ]} : gmap Z (list byte)) !! 0%Z
  = Some (data_frame rec_10 ++ terminator_frame) ∧
  receiveData (mkStream (data_frame rec_10 ++ terminator_frame) [1; 7; 200])
  = Ok (filter (fun r => destination (Key r) 2 = Ok 0%Z) [rec_10]).
Proof.
  assert (0 ≤ 1 < 2)%Z as Hself by lia.
  assert (2 < 512)%Z as HN by lia.
  assert (dispatch 2 1 (mkStream (flat_map record_bytes [rec_10]) []) [0%Z]
          = Ok ([], {[ 0%Z := data_frame rec_10 ++ terminator_frame ]}))
    as Hd by (vm_compute; reflexivity).
  assert (({[ 0%Z := data_frame rec_10 ++ terminator_frame ]}
           : gmap Z (list byte)) !! 0%Z
          = Some (data_frame rec_10 ++ terminator_frame)) as Hl
    by (vm_compute; reflexivity).
  split; [exact Hself|]. split; [exact HN|].
  split; [exact visits_peers_sample1|]. split; [exact wf_shard1|].
  split; [exact Hd|]. split; [exact Hl|].
  exact (routed_records_arrive 2 1 0 [rec_10] [] [0%Z] _ _ [1; 7; 200]
           Hself HN visits_peers_sample1 wf_shard1 Hd Hl).
Defined.

Lemma trailing_key_dropped_witness :
  (0 ≤ 0 < 2)%Z ∧ (2 < 512)%Z ∧ visits_peers 2 0 [1%Z] ∧
  Forall wf_Record [rec_80; rec_40] ∧ length (replicate 7 xff) ≤ 10 ∧
  dispatch 2 0 (mkStream (flat_map record_bytes [rec_80; rec_40]
                          ++ replicate 7 xff) []) [1%Z]
  = dispatch 2 0 (mkStream (flat_map record_bytes [rec_80; rec_40]) []) [1%Z].
Proof.
  assert (0 ≤ 0 < 2)%Z as Hself by lia.
  assert (2 < 512)%Z as HN by lia.
  assert (length (replicate 7 xff) ≤ 10) as Hlen by (cbn; lia).
  split; [exact Hself|]. split; [exact HN|].
  split; [exact visits_peers_sample|]. split; [exact wf_shard0|].
  split; [exact Hlen|].
  exact (trailing_key_dropped 2 0 [rec_80; rec_40] (replicate 7 xff) [1%Z]
           Hself HN visits_peers_sample wf_shard0 Hlen).
Defined.


Lemma own_records_routed_witness :
  dispatch 1 0 (mkStream (replicate 50 xff) [3]) []
  = Ok ([mkRecord (replicate 3 xff ++ replicate 7 x00)
           (replicate 47 xff ++ replicate 43 x00)], ∅) ∧
  Forall (fun r => wf_Record r ∧ destination (Key r) 1 = Ok 0%Z)
    [mkRecord (replicate 3 xff ++ replicate 7 x00)
       (replicate 47 xff ++ replicate 43 x00)].
Proof.
  assert (dispatch 1 0 (mkStream (replicate 50 xff) [3]) []
          = Ok ([mkRecord (replicate 3 xff ++ replicate 7 x00)
                   (replicate 47 xff ++ replicate 43 x00)], ∅)) as Hd
    by (vm_compute; reflexivity).
  split; [exact Hd|].
  exact (own_records_routed 1 0 _ [] _ _ Hd).
Defined.

Lemma destination_monotone_witness :
  destination (Key rec_40) 4 = Ok 1%Z ∧ destination (Key rec_80) 4 = Ok 2%Z ∧
  (lex_le (Key rec_40) (Key rec_80) → (1 ≤ 2)%Z) ∧
  ((1 < 2)%Z → lex_le (Key rec_40) (Key rec_80) ∧ ¬ lex_le (Key rec_80) (Key rec_40)).
Proof.
  assert (destination (Key rec_40) 4 = Ok 1%Z) as H1 by reflexivity.
  assert (destination (Key rec_80) 4 = Ok 2%Z) as H2 by reflexivity.
  split; [exact H1|]. split; [exact H2|].
  exact (destination_monotone 4 (Key rec_40) (Key rec_80) 1 2 H1 H2).
Defined.

Lemma two_outputs_sorted i l :
  two_outputs !! i = Some l →
  StronglySorted key_le l ∧
  Forall (fun r => destination (Key r) 2 = Ok (Z.of_nat i)) l.
Proof.
  destruct i as [|[|i]]; cbn; intros [= <-]; split;
    repeat first
      [ apply SSorted_nil | apply SSorted_cons
      | apply Forall_nil_2 | apply Forall_cons_2
      | apply less_key_le; vm_compute; reflexivity
      | reflexivity ].
Defined.

Lemma outputs_globally_sorted_witness :
  (∀ i l, two_outputs !! i = Some l →
          StronglySorted key_le l ∧
          Forall (fun r => destination (Key r) 2 = Ok (Z.of_nat i)) l) ∧
  StronglySorted key_le (concat two_outputs).
Proof.
  split; [exact two_outputs_sorted|].
  exact (outputs_globally_sorted 2 two_outputs two_outputs_sorted).
Defined.

Lemma every_node_is_a_destination_witness :
  (1 ≤ 4 ≤ 256)%Z ∧ power_of_two 4 = true ∧ (0 ≤ 3 < 4)%Z ∧
  ∃ b, byte_val b = Z.shiftl 3 (8 - Z.log2 4) ∧
       ∀ tl, destination (b :: tl) 4 = Ok 3%Z.
Proof.
  assert (1 ≤ 4 ≤ 256)%Z as HN by lia.
  assert (power_of_two 4 = true) as Hpow by reflexivity.
  assert (0 ≤ 3 < 4)%Z as Hd by lia.
  split; [exact HN|]. split; [exact Hpow|]. split; [exact Hd|].
  exact (every_node_is_a_destination 4 3 HN Hpow Hd).
Defined.

Lemma every_record_has_one_owner_witness :
  (1 ≤ 3 < 512)%Z ∧
  Forall wf_Record [rec_00; rec_10; rec_40; rec_80; rec_ff] ∧
  concat ((fun p => filter (fun r => destination (Key r) 3 = Ok p)
                      [rec_00; rec_10; rec_40; rec_80; rec_ff])
            <$> seqZ 0 3)
  ≡ₚ [rec_00; rec_10; rec_40; rec_80; rec_ff].
Proof.
  assert (1 ≤ 3 < 512)%Z as HN by lia.
  split; [exact HN|]. split; [exact wf_samples|].
  exact (every_record_has_one_owner 3 _ HN wf_samples).
Defined.

Lemma two_servers_ids : ServerID <$> two_servers ≡ₚ seqZ 0 2.
Proof. apply perm_swap. Defined.

Lemma topology_index_is_id_witness :
  sorts_of (@insertionSort_of Server) ∧
  ServerID <$> two_servers ≡ₚ seqZ 0 2 ∧
  ((0 ≤ 1 < 2)%Z →
     ∃ sv, sv ∈ two_servers ∧ ServerID sv = 1%Z ∧
           own_address insertionSort_of two_servers 1
           = Ok (insertionSort_of by_ServerID two_servers, 2%Z,
                 getAddress (Host sv) (Port sv)) ∧
           peer_address insertionSort_of two_servers 1
           = Ok (getAddress (Host sv) (Port sv))) ∧
  (¬ (0 ≤ 1 < 2)%Z → own_address insertionSort_of two_servers 1 = Panic).
Proof.
  split; [exact insertionSort_of_sorts|]. split; [exact two_servers_ids|].
  exact (topology_index_is_id insertionSort_of two_servers 2 1
           insertionSort_of_sorts two_servers_ids).
Defined.

Lemma distinct_keys :
  NoDup (Key <$> ([rec_40; rec_00] ++ [rec_ff; rec_10])).
Proof.
  cbn [app fmap list_fmap].
  repeat (apply NoDup_cons_2;
          [rewrite ?elem_of_cons, elem_of_nil; intros H;
           repeat (destruct H as [H|H]; [discriminate H|]); exact H|]).
  apply NoDup_nil_2.
Defined.

Lemma output_determined_by_records_witness :
  sorts insertionSort ∧ sorts (@insertionSort_of Rec) ∧
  [rec_40; rec_00] ++ [rec_ff; rec_10] ≡ₚ [rec_00] ++ [rec_40; rec_ff; rec_10] ∧
  NoDup (Key <$> ([rec_40; rec_00] ++ [rec_ff; rec_10])) ∧
  emit insertionSort [rec_40; rec_00] [rec_ff; rec_10]
  = emit insertionSort_of [rec_00] [rec_40; rec_ff; rec_10].
Proof.
  assert ([rec_40; rec_00] ++ [rec_ff; rec_10]
          ≡ₚ [rec_00] ++ [rec_40; rec_ff; rec_10]) as Hperm by apply perm_swap.
  split; [exact insertionSort_sorts|].
  split; [exact insertionSort_of_sorts|].
  split; [exact Hperm|]. split; [exact distinct_keys|].
  exact (output_determined_by_records insertionSort insertionSort_of
           [rec_40; rec_00] [rec_ff; rec_10] [rec_00] [rec_40; rec_ff; rec_10]
           insertionSort_sorts insertionSort_of_sorts Hperm distinct_keys).
Defined.


Lemma accepts_at_most_all_peers_witness :
  (1 ≤ 2)%Z ∧ reachable 2 [rec_40] merged ∧
  (Z.of_nat (length (nodeChannels merged)) ≤ 2 - 1)%Z ∧
  (coll merged ≠ NotStarted →
   Z.of_nat (length (nodeChannels merged)) = (2 - 1)%Z) ∧
  (coll merged = Finished → waitGroup merged = 0) ∧
  (coll merged ≠ Finished → waitGroup merged = 1).
Proof.
  assert (1 ≤ 2)%Z as HN by lia.
  split; [exact HN|]. split; [exact sample_run|].
  exact (accepts_at_most_all_peers 2 [rec_40] merged HN sample_run).
Defined.


Lemma wf_two_shards i : Forall wf_Record (two_shards i).
Proof.
  unfold two_shards. destruct (decide (i = 0%Z)); [exact wf_shard0 | exact wf_shard1].
Defined.

Lemma node0_dispatch_two_shards :
  dispatch 2 0 (mkStream (flat_map record_bytes (two_shards 0)) []) [1%Z]
  = Ok ([rec_40], {[ 1%Z := data_frame rec_80 ++ terminator_frame ]}).
Proof. vm_compute. reflexivity. Defined.

Lemma merged_links :
  Forall2 (fun ib i =>
             ∃ order_i own_i conns_i bytes sched,
               visits_peers 2 i order_i ∧
               dispatch 2 i (mkStream (flat_map record_bytes (two_shards i)) []) order_i
               = Ok (own_i, conns_i) ∧
               conns_i !! 0%Z = Some bytes ∧
               origin ib = mkStream bytes sched)
          (nodeChannels merged) [1%Z].
Proof.
  apply Forall2_cons_2; [|apply Forall2_nil_2].
  exists [0%Z], [], {[ 0%Z := data_frame rec_10 ++ terminator_frame ]},
    (data_frame rec_10 ++ terminator_frame), [1; 7; 200].
  split; [exact visits_peers_sample1|].
  split; [vm_compute; reflexivity|].
  split; [vm_compute; reflexivity | reflexivity].
Defined.

Lemma node_merges_its_range_witness :
  (0 ≤ 0 < 2)%Z ∧ (2 < 512)%Z ∧ (∀ i, Forall wf_Record (two_shards i)) ∧
  visits_peers 2 0 [1%Z] ∧
  dispatch 2 0 (mkStream (flat_map record_bytes (two_shards 0)) []) [1%Z]
  = Ok ([rec_40], {[ 1%Z := data_frame rec_80 ++ terminator_frame ]}) ∧
  reachable 2 [rec_40] merged ∧ pc merged = Merging [rec_40; rec_10] ∧
  [rec_40; rec_10]
  ≡ₚ filter (fun r => destination (Key r) 2 = Ok 0%Z)
       (concat (two_shards <$> seqZ 0 2)).
Proof.
  assert (0 ≤ 0 < 2)%Z as Hj by lia.
  assert (2 < 512)%Z as HN by lia.
  split; [exact Hj|]. split; [exact HN|]. split; [exact wf_two_shards|].
  split; [exact visits_peers_sample|].
  split; [exact node0_dispatch_two_shards|].
  split; [exact sample_run|]. split; [reflexivity|].
  exact (node_merges_its_range 2 0 two_shards [1%Z] [1%Z] [rec_40] _ merged
           [rec_40; rec_10] Hj HN wf_two_shards visits_peers_sample
           visits_peers_sample node0_dispatch_two_shards sample_run eq_refl
           merged_links).
Defined.

Lemma wf_four : Forall wf_Record ([rec_40; rec_00] ++ [rec_ff; rec_10]).
Proof. repeat (apply Forall_cons_2; [split; reflexivity|]). apply Forall_nil_2. Defined.

Lemma output_reads_back_witness :
  sorts insertionSort ∧
  Forall wf_Record ([rec_40; rec_00] ++ [rec_ff; rec_10]) ∧
  dispatch 1 0 (mkStream (emit insertionSort [rec_40; rec_00] [rec_ff; rec_10]) []) []
  = Ok (merge insertionSort [rec_40; rec_00] [rec_ff; rec_10], ∅).
Proof.
  split; [exact insertionSort_sorts|]. split; [exact wf_four|].
  exact (output_reads_back insertionSort [rec_40; rec_00] [rec_ff; rec_10]
           insertionSort_sorts wf_four).
Defined.

End MoreInstances.
